(** * On-chain price predictor: quantization codec, chunked deploy, crank
      and unit partitioner

    A shallow embedding of the client-side JavaScript of the price
    predictor (SDK class [PricePredictor], the data collector, the deploy
    script and the crank script) together with the on-chain
    [MODE_WRITE_ACCOUNT] handler documented in the README, followed by the
    properties established about them.

    Conventions of the embedding.
    - JavaScript integers that stay far below 2^53 are [Z]; a signed 32-bit
      read is written out with its two's complement wrap.
    - Real-valued market data are exact rationals [Q].  [Math.floor] is
      [Qfloor] and [Math.round] is [Qfloor (x + 1/2)] (ties go up, as in
      JavaScript).  [NaN] and the infinities have no counterpart: a record
      whose [price] is zero is outside the model.
    - Buffers are [list byte].
    - Code that throws returns a sum or an outcome value naming the
      exception; loops that await a transaction thread the account state. *)

From Stdlib Require Import String.
From Stdlib Require Import ZArith NArith QArith Qround Qminmax.
From Stdlib Require Import List Bool Lia Lqa.
From Stdlib Require Import Init.Byte Strings.Byte.
Import ListNotations.

Local Open Scope Z_scope.

(* ===================================================================== *)
(** * Part I: the embedding                                               *)
(* ===================================================================== *)

(** ** JavaScript primitives shared by the scripts *)

Module JS.

(** [Math.floor] on a finite number. *)
Definition Math_floor (x : Q) : Z := Qfloor x.

(** [Math.round]: nearest integer, halves rounded towards +infinity. *)
Definition Math_round (x : Q) : Z := Qfloor (x + (1 # 2)).

(** The numeric value of one byte of a buffer. *)
Definition byte_val (b : byte) : Z := Z.of_N (Byte.to_N b).

(** The byte whose value is [z mod 256]. *)
Definition byte_of (z : Z) : byte :=
  match Byte.of_N (Z.to_N (z mod 256)) with
  | Some b => b
  | None => x00
  end.

(** [buf.readInt32LE(0)]: four little-endian bytes read as a two's
    complement 32-bit integer; [None] stands for the [RangeError] Node
    raises when fewer than four bytes are available. *)
Definition readInt32LE (buf : list byte) : option Z :=
  match buf with
  | b0 :: b1 :: b2 :: b3 :: _ =>
      let u := byte_val b0 + byte_val b1 * 2 ^ 8
               + byte_val b2 * 2 ^ 16 + byte_val b3 * 2 ^ 24 in
      Some (if u <? 2 ^ 31 then u else u - 2 ^ 32)
  | _ => None
  end.

(** [buf.slice(start, end)]: negative indices count from the end, both
    indices are clamped to the buffer. *)
Definition slice_index (len i : Z) : Z :=
  if i <? 0 then Z.max 0 (len + i) else Z.min i len.

Definition slice (buf : list byte) (start stop : Z) : list byte :=
  let len := Z.of_nat (length buf) in
  let s := slice_index len start in
  let e := slice_index len stop in
  firstn (Z.to_nat (e - s)) (skipn (Z.to_nat s) buf).

(** [buf.readUInt32LE(offset)]: four little-endian bytes from [offset] on,
    unsigned; [None] is the [RangeError] of a read that leaves the
    buffer. *)
Definition readUInt32LE (buf : list byte) (offset : nat) : option Z :=
  match skipn offset buf with
  | b0 :: b1 :: b2 :: b3 :: _ =>
      Some (byte_val b0 + byte_val b1 * 256
            + byte_val b2 * 65536 + byte_val b3 * 16777216)
  | _ => None
  end.

(** [buf.readInt32LE(offset)] for any offset. *)
Definition readInt32LE_at (buf : list byte) (offset : nat) : option Z :=
  readInt32LE (skipn offset buf).

(** [Buffer.alloc(size)]: a zero-filled buffer. *)
Definition Buffer_alloc (size : Z) : list byte :=
  repeat x00 (Z.to_nat size).

(** [buf.writeUInt8(value, offset)]: [None] is the [RangeError] for a
    value outside [0, 255] or an offset outside the buffer. *)
Definition writeUInt8 (buf : list byte) (value : Z) (offset : nat)
  : option (list byte) :=
  if (0 <=? value) && (value <=? 255) && (offset <? length buf)%nat
  then Some (firstn offset buf ++ byte_of value :: skipn (S offset) buf)
  else None.

(** [source.copy(target, targetStart)]: the target after the copy, which
    takes as many bytes of the source as the target has room for. *)
Definition copy (source target : list byte) (targetStart : nat)
  : list byte :=
  let copied := firstn (length target - targetStart) source in
  firstn targetStart target ++ copied
  ++ skipn (targetStart + length copied) target.

End JS.

(** ** The SDK: [PricePredictor] *)

Module Codec.
Import JS.

Record MarketData := {
  vwap : Q;
  price : Q;
  volumeChange : Q;
  bidAskRatio : Q;
  volatility : Q;
  liquidityRatio : Q;
  momentum : Q
}.

Record Features := {
  f_vwapRatio : Z;
  f_volumeAccel : Z;
  f_orderbookImbal : Z;
  f_volatility : Z;
  f_liquidity : Z;
  f_momentum : Z
}.

(** [clamp(value)]: [Math.max(0, Math.min(255, value))].  Every caller
    passes the result of [Math.floor], an integer. *)
Definition clamp (value : Z) : Z := Z.max 0 (Z.min 255 value).

(** [normalizeFeatures(marketData)]. *)
Definition normalizeFeatures (marketData : MarketData) : Features := {|
  f_vwapRatio :=
    clamp (Math_floor ((vwap marketData / price marketData) * 128));
  f_volumeAccel :=
    clamp (Math_floor (128 + volumeChange marketData * 64));
  f_orderbookImbal :=
    clamp (Math_floor (128 + bidAskRatio marketData * 64));
  f_volatility :=
    clamp (Math_floor (volatility marketData * 255));
  f_liquidity :=
    clamp (Math_floor (liquidityRatio marketData * 255));
  f_momentum :=
    clamp (Math_floor (128 + momentum marketData * 127))
|}.

(** [getSignal(direction, confidence)]. *)
Definition getSignal (direction confidence : Z) : string :=
  if confidence <? 100 then "hold"%string
  else if direction >? 50 then "strong_buy"%string
  else if direction >? 0 then "buy"%string
  else if direction <? -50 then "strong_sell"%string
  else if direction <? 0 then "sell"%string
  else "hold"%string.

(** The object [parseResult] returns. *)
Record Prediction := {
  direction : Z;
  rawDirection : Z;
  confidence : Z;
  signal : string
}.

Inductive Exception := RangeError.

(** [parseResult(returnData)].  [None] as argument is a missing
    (null/undefined) buffer, [inr None] is the [null] result; a buffer
    shorter than four bytes makes [readInt32LE] throw.  [value / 1000]
    floors (JavaScript: [Math.floor(value / 1000)]) and [Z.rem] is the
    truncating remainder of [%]. *)
Definition parseResult (returnData : option (list byte))
  : Exception + option Prediction :=
  match returnData with
  | None => inr None
  | Some buf =>
      match readInt32LE buf with
      | None => inl RangeError
      | Some value =>
          let direction := value / 1000 in
          let confidence := Z.abs (Z.rem value 1000) in
          inr (Some {|
            direction :=
              if direction >? 0 then 1
              else if direction <? 0 then -1 else 0;
            rawDirection := direction;
            confidence := confidence;
            signal := getSignal direction confidence
          |})
      end
  end.

(** [encodeFeatures(features)]: [Buffer.from([...])] stores each number
    modulo 256. *)
Definition encodeFeatures (features : Features) : list byte :=
  [byte_of (f_vwapRatio features);
   byte_of (f_volumeAccel features);
   byte_of (f_orderbookImbal features);
   byte_of (f_volatility features);
   byte_of (f_liquidity features);
   byte_of (f_momentum features)].

(** [this.MODE_EXECUTE_BYTECODE], set by the constructor. *)
Definition MODE_EXECUTE_BYTECODE : Z := 2.

Section Instructions.

(** Public keys are left abstract. *)
Variable Pubkey : Type.

Record AccountMeta := {
  pubkey : Pubkey;
  isSigner : bool;
  isWritable : bool
}.

Record TransactionInstruction := {
  keys : list AccountMeta;
  programId : Pubkey;
  data : list byte
}.

(** The three statements that fill [data] in both builders; [None] if
    [writeUInt8] throws. *)
Definition instruction_data (bytecode : list byte) : option (list byte) :=
  let data := Buffer_alloc (1 + Z.of_nat (length bytecode)) in
  match writeUInt8 data MODE_EXECUTE_BYTECODE 0 with
  | Some data' => Some (copy bytecode data' 1)
  | None => None
  end.

(** [buildEncoderInstruction(bytecode, weightsAccount, hiddenAccount,
    payer)] for the predictor created with [program]. *)
Definition buildEncoderInstruction (program : Pubkey)
  (bytecode : list byte) (weightsAccount hiddenAccount payer : Pubkey)
  : option TransactionInstruction :=
  match instruction_data bytecode with
  | Some data =>
      Some {| keys := [
                {| pubkey := payer; isSigner := true; isWritable := true |};
                {| pubkey := weightsAccount; isSigner := false;
                   isWritable := false |};
                {| pubkey := hiddenAccount; isSigner := false;
                   isWritable := true |} ];
              programId := program;
              data := data |}
  | None => None
  end.

(** [buildDecoderInstruction(bytecode, weightsAccount, hiddenAccount,
    payer)]. *)
Definition buildDecoderInstruction (program : Pubkey)
  (bytecode : list byte) (weightsAccount hiddenAccount payer : Pubkey)
  : option TransactionInstruction :=
  match instruction_data bytecode with
  | Some data =>
      Some {| keys := [
                {| pubkey := payer; isSigner := true; isWritable := true |};
                {| pubkey := weightsAccount; isSigner := false;
                   isWritable := false |};
                {| pubkey := hiddenAccount; isSigner := false;
                   isWritable := false |} ];
              programId := program;
              data := data |}
  | None => None
  end.

End Instructions.

Arguments pubkey {Pubkey}.
Arguments isSigner {Pubkey}.
Arguments isWritable {Pubkey}.
Arguments keys {Pubkey}.
Arguments programId {Pubkey}.
Arguments data {Pubkey}.

(** [isBullish(result)]. *)
Definition isBullish (result : Prediction) : bool :=
  (direction result >? 0) && (confidence result >? 150).

(** [isBearish(result)]. *)
Definition isBearish (result : Prediction) : bool :=
  (direction result <? 0) && (confidence result >? 150).

(** [isHighConfidence(result, threshold = 180)]; [None] is an omitted
    threshold. *)
Definition isHighConfidence (result : Prediction) (threshold : option Z)
  : bool :=
  let threshold := match threshold with Some t => t | None => 180 end in
  confidence result >? threshold.

End Codec.

(** ** The data collector: [calculateFeatures] *)

Module Collector.
Import JS.

(** One entry of [priceHistory], as built by [fetchData] (the fields
    [calculateFeatures] reads). *)
Record Sample := {
  timestamp : Z;
  pythPrice : Q;
  dexPrice : Q;
  liquidity : Z;
  spread : Q
}.

Record Row := {
  r_timestamp : Z;
  r_pythPrice : Q;
  r_dexPrice : Q;
  priceVsSma : Z;
  momentum : Z;
  volatility : Z;
  r_liquidity : Z;
  spreadFeature : Z;
  trend : Z
}.

(** The idiom [Math.max(0, Math.min(255, Math.round(v)))] that the
    function repeats for each feature. *)
Definition round_clamp (v : Q) : Z := Z.max 0 (Z.min 255 (Math_round v)).

(** [a > b] on numbers. *)
Definition gt (a b : Q) : bool := negb (Qle_bool a b).

(** [calculateFeatures(history)]: [None] is the [null] returned while
    fewer than four samples are held. *)
Definition calculateFeatures (history : list Sample) : option Row :=
  match rev history with
  | current :: prev1 :: prev2 :: prev3 :: _ =>
      let sma := ((pythPrice current + pythPrice prev1
                   + pythPrice prev2 + pythPrice prev3) / 4)%Q in
      let priceVsSma :=
        (128 + ((pythPrice current - sma) / sma) * 100)%Q in
      let momentum :=
        (128 + ((pythPrice current - pythPrice prev3) / pythPrice prev3)
               * 100)%Q in
      let hi := Qmax (Qmax (pythPrice current) (pythPrice prev1))
                     (Qmax (pythPrice prev2) (pythPrice prev3)) in
      let lo := Qmin (Qmin (pythPrice current) (pythPrice prev1))
                     (Qmin (pythPrice prev2) (pythPrice prev3)) in
      let range := (hi - lo)%Q in
      let volatility := ((range / sma) * 1000)%Q in
      let spreadFeature := (128 + spread current)%Q in
      let ups :=
        ((if gt (pythPrice current) (pythPrice prev1) then 1 else 0)
         + (if gt (pythPrice prev1) (pythPrice prev2) then 1 else 0))%Z in
      Some {|
        r_timestamp := timestamp current;
        r_pythPrice := pythPrice current;
        r_dexPrice := dexPrice current;
        priceVsSma := round_clamp priceVsSma;
        momentum := round_clamp momentum;
        volatility := round_clamp volatility;
        r_liquidity := liquidity current;
        spreadFeature := round_clamp spreadFeature;
        trend := ups * 85
      |}
  | _ => None
  end.

(** The raw Pyth price read by [fetchData]: [priceLow] is
    [readUInt32LE(208)], [priceHigh] is [readInt32LE(212)], and [rawPrice]
    is [BigInt(priceHigh) * BigInt(0x100000000) + BigInt(priceLow)];
    [None] when a read throws. *)
Definition pyth_rawPrice (pythData : list byte) : option Z :=
  match readUInt32LE pythData 208, readInt32LE_at pythData 212 with
  | Some priceLow, Some priceHigh =>
      Some (priceHigh * 4294967296 + priceLow)
  | _, _ => None
  end.

(** [while (s > 0) { liq++; s = Math.floor(s / 2); }] of [fetchData], on
    fuel: [None] means the fuel ran out before the loop ended. *)
Fixpoint halving_loop (fuel : nat) (s liq : Z) : option Z :=
  match fuel with
  | O => None
  | S fuel' =>
      if s >? 0 then halving_loop fuel' (s / 2) (liq + 1)
      else Some liq
  end.

(** The liquidity indicator of [fetchData] for a reserve of [solAmount]:
    the loop above from [liq = 0], then [if (liq > 255) liq = 255]. *)
Definition liquidity_indicator (fuel : nat) (solAmount : Z) : option Z :=
  match halving_loop fuel solAmount 0 with
  | Some liq => Some (if liq >? 255 then 255 else liq)
  | None => None
  end.

(** [labelData(features, futurePrice)]. *)
Definition labelData (features : Row) (futurePrice : Q) : Z :=
  let change := ((futurePrice - r_pythPrice features)
                 / r_pythPrice features)%Q in
  if gt (- (1 # 1000)) change then -1
  else if gt change (1 # 1000) then 1
  else 0.

Definition MAX_HISTORY : Z := 20.

(** [CONFIG.LOOKAHEAD]. *)
Definition LOOKAHEAD : Z := 6.

(** The state [collect] keeps between ticks: the rolling window, the rows
    that wait for their future price, the rows appended to the output
    file (each with its label, before they are formatted as text) and the
    sample counter. *)
Record Collected := {
  priceHistory : list Sample;
  pendingLabels : list Row;
  csv_rows : list (Row * Z);
  sampleCount : Z
}.

(** [collect] starts from an empty window and no pending row. *)
Definition collect_start : Collected :=
  {| priceHistory := []; pendingLabels := []; csv_rows := [];
     sampleCount := 0 |}.

(** [while (pendingLabels.length > CONFIG.LOOKAHEAD) { ... }]: every
    iteration shifts the oldest row out, labels it with the price just
    fetched and appends it to the file. *)
Fixpoint label_pending (pendingLabels : list Row) (pythPrice : Q)
  (rows : list (Row * Z)) (count : Z)
  : list Row * list (Row * Z) * Z :=
  match pendingLabels with
  | [] => (pendingLabels, rows, count)
  | old :: rest =>
      if Z.of_nat (length pendingLabels) >? LOOKAHEAD
      then label_pending rest pythPrice
             (rows ++ [(old, labelData old pythPrice)]) (count + 1)
      else (pendingLabels, rows, count)
  end.

(** One [tick] of [collect]; [data] is what [fetchData] returned, [None]
    for its [null]. *)
Definition tick (st : Collected) (data : option Sample) : Collected :=
  match data with
  | None => st
  | Some data =>
      let pushed := priceHistory st ++ [data] in
      let history :=
        if Z.of_nat (length pushed) >? MAX_HISTORY then tl pushed
        else pushed in
      match calculateFeatures history with
      | None =>
          {| priceHistory := history; pendingLabels := pendingLabels st;
             csv_rows := csv_rows st; sampleCount := sampleCount st |}
      | Some features =>
          let '(pending, rows, count) :=
            label_pending (pendingLabels st ++ [features])
              (pythPrice data) (csv_rows st) (sampleCount st) in
          {| priceHistory := history; pendingLabels := pending;
             csv_rows := rows; sampleCount := count |}
      end
  end.

End Collector.

(** ** The deploy script: chunked writes through [MODE_WRITE_ACCOUNT] *)

Module Deploy.
Import JS.

(** [CONFIG.MODE_WRITE_ACCOUNT]; the header comment of
    [writeAccountDirect] and the README give its value. *)
Definition MODE_WRITE_ACCOUNT : byte := x03.

(** The exceptions a write can end with. *)
Inductive Error :=
| ERR_OUT_OF_RANGE      (* writeUInt16LE: offset does not fit 16 bits *)
| TransactionRejected.  (* sendAndConfirmTransaction rejected *)

(** How an awaited call ends. *)
Inductive Outcome :=
| Resolved
| Rejected (e : Error).

(** The target account together with the calls made to
    [writeAccountDirect] so far, oldest first, as [(offset, data)]. *)
Record Chain := {
  account : list byte;
  calls : list (Z * list byte)
}.

(** The value of [Math.ceil(a / b)] and of the loop bound compared
    against it. *)
Inductive JsNum :=
| Finite (z : Z)
| Infinity
| NaN.

(** [Math.ceil(a / b)] for an integer [a >= 0] (a buffer length) and an
    integer [b]: a zero divisor yields [Infinity], or [NaN] for [0 / 0]. *)
Definition Math_ceil_div (a b : Z) : JsNum :=
  if b =? 0 then (if a =? 0 then NaN else Infinity)
  else Finite (- ((- a) / b)).

(** [i < n] for an integer [i]. *)
Definition lt_num (i : Z) (n : JsNum) : bool :=
  match n with
  | Finite z => i <? z
  | Infinity => true
  | NaN => false
  end.

(** [offsetBuf.writeUInt16LE(value)] on a fresh two-byte buffer; Node
    throws [ERR_OUT_OF_RANGE] outside [0, 65535]. *)
Definition writeUInt16LE (value : Z) : option (list byte) :=
  if (0 <=? value) && (value <=? 65535)
  then Some [byte_of value; byte_of (Z.shiftr value 8)]
  else None.

(** [sol_memcpy(acct->data + offset, payload, payload_len)] on an account
    that holds at least [offset + payload_len] bytes. *)
Definition sol_memcpy (acct : list byte) (offset : Z)
  (payload : list byte) : list byte :=
  firstn (Z.to_nat offset) acct ++ payload
  ++ skipn (Z.to_nat offset + length payload) acct.

(** The on-chain handler of the README ([case 0x03] of
    [pika_python.c]): little-endian 16-bit offset, bounds check against
    the account length, then [sol_memcpy].  [None] is
    [ERROR_INVALID_ARGUMENT].  The account is passed writable by
    [writeAccountDirect], so that check never fires. *)
Definition write_account_handler (data acct : list byte)
  : option (list byte) :=
  match data with
  | _ :: lo :: hi :: payload =>
      let offset := Z.lor (byte_val lo) (Z.shiftl (byte_val hi) 8) in
      let payload_len := Z.of_nat (length payload) in
      if offset + payload_len >? Z.of_nat (length acct) then None
      else Some (sol_memcpy acct offset payload)
  | _ => None
  end.

Section Substrate.

(** Modelled from the spec: the transport limit, the largest number of
    payload bytes one write transaction may carry; the runtime that
    enforces it is not part of the repository. *)
Variable transportLimit : Z.

(** [sendAndConfirmTransaction] for a transaction whose instruction
    carries [data] to the program: rejected by the transport limit, by
    an unknown mode byte or by the handler; [None] is the rejected
    promise. *)
Definition sendAndConfirmTransaction (acct data : list byte)
  : option (list byte) :=
  if Z.of_nat (length data) - 3 >? transportLimit then None
  else match data with
       | mode :: _ =>
           if Byte.eqb mode MODE_WRITE_ACCOUNT
           then write_account_handler data acct
           else None
       | [] => None
       end.

(** [writeAccountDirect(connection, payer, programId, account, data,
    offset)]. *)
Definition writeAccountDirect (w : Chain) (data : list byte)
  (offset : Z) : Chain * Outcome :=
  let w1 := {| account := account w;
               calls := calls w ++ [(offset, data)] |} in
  match writeUInt16LE offset with
  | None => (w1, Rejected ERR_OUT_OF_RANGE)
  | Some offsetBuf =>
      match sendAndConfirmTransaction (account w1)
              ([MODE_WRITE_ACCOUNT] ++ offsetBuf ++ data) with
      | Some acct' =>
          ({| account := acct'; calls := calls w1 |}, Resolved)
      | None => (w1, Rejected TransactionRejected)
      end
  end.

(** The [for] loop of [writeToAccountChunked] from index [i] on.  The
    loop has no bound of its own when [numChunks] is [Infinity], so it
    runs on [fuel]: [None] means the fuel ran out before the loop
    ended. *)
Fixpoint chunk_loop (fuel : nat) (w : Chain) (data : list byte)
  (chunkSize : Z) (numChunks : JsNum) (i : Z)
  : option (Chain * Outcome) :=
  match fuel with
  | O => None
  | S fuel' =>
      if lt_num i numChunks then
        let offset := i * chunkSize in
        let chunk := slice data offset (offset + chunkSize) in
        match writeAccountDirect w chunk offset with
        | (w', Resolved) =>
            chunk_loop fuel' w' data chunkSize numChunks (i + 1)
        | (w', Rejected e) => Some (w', Rejected e)
        end
      else Some (w, Resolved)
  end.

(** [writeToAccountChunked(connection, payer, programId, account,
    data, chunkSize)]. *)
Definition writeToAccountChunked (fuel : nat) (w : Chain)
  (data : list byte) (chunkSize : Z) : option (Chain * Outcome) :=
  let numChunks := Math_ceil_div (Z.of_nat (length data)) chunkSize in
  chunk_loop fuel w data chunkSize numChunks 0.

End Substrate.

(** The default of the [chunkSize] parameter. *)
Definition default_chunkSize : Z := 900.

(** A freshly created account of [space] bytes: all zero, nothing
    written yet. *)
Definition createAccount (space : Z) : Chain :=
  {| account := repeat x00 (Z.to_nat space); calls := [] |}.

Section Main.

Variable transportLimit : Z.

(** [moduleSpace] of [main]: [Math.max(moduleBytecode.length + 64,
    4096)]. *)
Definition moduleSpace (moduleBytecode : list byte) : Z :=
  Z.max (Z.of_nat (length moduleBytecode) + 64) 4096.

Definition weightsSpace : Z := 128.
Definition featuresSpace : Z := 128.

(** The three accounts [main] creates. *)
Record Deployment := {
  moduleAcc : Chain;
  weightsAcc : Chain;
  featuresAcc : Chain
}.

(** What [main] does on chain once the three accounts are created: the
    module bytecode goes through [writeToAccountChunked] with the default
    chunk size, then the weights through one [writeAccountDirect] at
    offset 0.  A rejected write throws out of [main], so the weights are
    not written after a failed module deploy.  [None]: out of fuel. *)
Definition main (fuel : nat) (moduleBytecode weights : list byte)
  : option (Deployment * Outcome) :=
  let created := {| moduleAcc := createAccount (moduleSpace moduleBytecode);
                    weightsAcc := createAccount weightsSpace;
                    featuresAcc := createAccount featuresSpace |} in
  match writeToAccountChunked transportLimit fuel (moduleAcc created)
          moduleBytecode default_chunkSize with
  | None => None
  | Some (m, Rejected e) =>
      Some ({| moduleAcc := m; weightsAcc := weightsAcc created;
               featuresAcc := featuresAcc created |}, Rejected e)
  | Some (m, Resolved) =>
      let (w, out) :=
        writeAccountDirect transportLimit (weightsAcc created) weights 0 in
      Some ({| moduleAcc := m; weightsAcc := w;
               featuresAcc := featuresAcc created |}, out)
  end.

End Main.

End Deploy.

(** ** The crank script: [runCrankCycle] *)

Module Crank.
Import JS.

Record Script := {
  name : string;
  file : string;
  accounts : list string
}.

(** [ACCUMULATOR_SCRIPTS], in order. *)
Definition ACCUMULATOR_SCRIPTS : list Script := [
  {| name := "accum_v2_p1"; file := "src/python/accum_v2_p1.py";
     accounts := ["pyth"; "accumulator"] |};
  {| name := "acc_sma"; file := "src/python/acc_sma.py";
     accounts := ["accumulator"] |};
  {| name := "acc_vol_a"; file := "src/python/acc_vol_a.py";
     accounts := ["accumulator"] |};
  {| name := "acc_mom"; file := "src/python/acc_mom.py";
     accounts := ["accumulator"] |};
  {| name := "acc_ray_liq"; file := "src/python/acc_ray_liq.py";
     accounts := ["raydium_sol"; "accumulator"] |};
  {| name := "acc_dex_price"; file := "src/python/acc_dex_price.py";
     accounts := ["raydium_sol"; "raydium_usdc"; "accumulator"] |};
  {| name := "acc_spread"; file := "src/python/acc_spread.py";
     accounts := ["accumulator"] |}
]%string.

Definition MODE_EXECUTE_BYTECODE : byte := x02.

(** One line of [console.log] output of the cycle. *)
Inductive LogLine :=
| Executing (script_name : string)          (* "  name..." *)
| Confirmed (signature : string)            (* "    [ok] sig..." *)
| Failed (script_name : string).            (* "    [x] name: message" *)

(** The lines that report how a unit ended. *)
Definition is_outcome (l : LogLine) : bool :=
  match l with
  | Executing _ => false
  | Confirmed _ | Failed _ => true
  end.

Section Cycle.

(** Public keys and the state of the cluster are left abstract. *)
Variable Pubkey : Type.
Variable Cluster : Type.

(** [compilePython(scriptPath)]: the external compiler; [None] when
    [execSync] or the read throws. *)
Variable compilePython : string -> option (list byte).

(** [accountMap[name]]; [None] is [undefined]. *)
Variable accountMap : string -> option Pubkey.

Record AccountMeta := {
  pubkey : option Pubkey;
  isSigner : bool;
  isWritable : bool
}.

Record Transaction := {
  computeUnitLimit : Z;
  keys : list AccountMeta;
  data : list byte
}.

(** The cluster's answer to one transaction: the new state and the
    signature, or [None] when the promise rejects. *)
Variable sendAndConfirmTransaction :
  Cluster -> Transaction -> Cluster * option string.

(** What a cycle leaves behind: the cluster, every transaction handed
    to [sendAndConfirmTransaction] (oldest first) and the console. *)
Record World := {
  cluster : Cluster;
  submitted : list Transaction;
  console : list LogLine
}.

Definition log (w : World) (l : LogLine) : World :=
  {| cluster := cluster w; submitted := submitted w;
     console := console w ++ [l] |}.

(** [accountPubkeys.map((pubkey, i) => ...)]: only the last account is
    writable. *)
Fixpoint account_metas (accountPubkeys : list (option Pubkey))
  : list AccountMeta :=
  match accountPubkeys with
  | [] => []
  | pk :: rest =>
      {| pubkey := pk; isSigner := false;
         isWritable := match rest with [] => true | _ => false end |}
      :: account_metas rest
  end.

(** The transaction built by [executePythonScript]. *)
Definition build_transaction (bytecode : list byte)
  (accountPubkeys : list (option Pubkey)) : Transaction :=
  let len := Z.of_nat (length bytecode) in
  {| computeUnitLimit := 500000;
     keys := account_metas accountPubkeys;
     data := [MODE_EXECUTE_BYTECODE;
              byte_of (Z.land len 255);
              byte_of (Z.land (Z.shiftr len 8) 255)] ++ bytecode |}.

(** [executePythonScript(connection, payer, programId, bytecode,
    accountPubkeys)]: the signature, or [None] when it throws. *)
Definition executePythonScript (w : World) (bytecode : list byte)
  (accountPubkeys : list (option Pubkey)) : World * option string :=
  let tx := build_transaction bytecode accountPubkeys in
  let (c', r) := sendAndConfirmTransaction (cluster w) tx in
  ({| cluster := c'; submitted := submitted w ++ [tx];
      console := console w |}, r).

(** The body of the [for] loop: the [try] block, and the [catch] that
    logs the failure and lets the loop go on. *)
Definition crank_step (w : World) (script : Script) : World :=
  match compilePython (file script) with
  | None => log w (Failed (name script))
  | Some bytecode =>
      let accountPubkeys := map accountMap (accounts script) in
      let w1 := log w (Executing (name script)) in
      match executePythonScript w1 bytecode accountPubkeys with
      | (w2, Some sig) => log w2 (Confirmed (substring 0 20 sig))
      | (w2, None) => log w2 (Failed (name script))
      end
  end.

(** [for (const script of scripts) { ... }]. *)
Definition crank_loop (scripts : list Script) (w : World) : World :=
  fold_left crank_step scripts w.

(** What a script is submitted as: its transaction when it compiles,
    nothing when the compiler throws. *)
Definition planned (script : Script) : list Transaction :=
  match compilePython (file script) with
  | Some bytecode =>
      [build_transaction bytecode (map accountMap (accounts script))]
  | None => []
  end.

(** [runCrankCycle(connection, payer, programId, accumulatorPubkey,
    accountMap)].  The function has no [return]: its promise resolves
    to [undefined], so the world is all it produces. *)
Definition runCrankCycle (w : World) : World :=
  crank_loop ACCUMULATOR_SCRIPTS w.

End Cycle.

Arguments pubkey {Pubkey}.
Arguments isSigner {Pubkey}.
Arguments isWritable {Pubkey}.
Arguments computeUnitLimit {Pubkey}.
Arguments keys {Pubkey}.
Arguments data {Pubkey}.
Arguments cluster {Pubkey Cluster}.
Arguments submitted {Pubkey Cluster}.
Arguments console {Pubkey Cluster}.

(** The object [readAccumulatorState] returns; a byte read as [data[i]]
    is [None] when it is [undefined]. *)
Record AccumulatorState := {
  lastPrice : Z;
  prevPrice1 : Z;
  prevPrice2 : Z;
  prevPrice3 : Z;
  sma : Z;
  volatility : option Z;
  momentum : option Z;
  liquidity : option Z;
  spread : option Z;
  dexPrice : Z
}.

(** What [connection.getAccountInfo] may do: reject, or resolve to
    [null] or to an account with its data. *)
Inductive AccountInfo :=
| RpcRejected
| NoAccount
| Account (data : list byte).

(** [data[i]]. *)
Definition byte_at (data : list byte) (i : nat) : option Z :=
  option_map byte_val (nth_error data i).

(** [readAccumulatorState(connection, accumulatorPubkey)]: [None] is the
    [null] of a missing account and of the [catch]. *)
Definition readAccumulatorState (info : AccountInfo)
  : option AccumulatorState :=
  match info with
  | RpcRejected => None
  | NoAccount => None
  | Account data =>
      match readUInt32LE data 0, readUInt32LE data 4, readUInt32LE data 8,
            readUInt32LE data 12, readUInt32LE data 16,
            readUInt32LE data 24 with
      | Some p0, Some p1, Some p2, Some p3, Some s, Some d =>
          Some {| lastPrice := p0; prevPrice1 := p1; prevPrice2 := p2;
                  prevPrice3 := p3; sma := s;
                  volatility := byte_at data 20;
                  momentum := byte_at data 21;
                  liquidity := byte_at data 22;
                  spread := byte_at data 23;
                  dexPrice := d |}
      | _, _, _, _, _, _ => None
      end
  end.

End Crank.

(** ** The unit partitioner *)

Module Partitioner.

Record Node := {
  node_id : nat;
  estimatedCompiledBytes : N;
  estimatedComputeCost : N
}.

Record Limits := {
  maxBytes : N;
  maxCompute : N
}.

Record UnitGroup := {
  nodeSubset : list Node;
  estimatedBytes : N;
  estimatedCompute : N
}.

Inductive PartitionError :=
| NodeExceedsBudget (n : Node).

Local Open Scope N_scope.

(** A node whose own cost is within both limits. *)
Definition packable (limits : Limits) (n : Node) : bool :=
  (estimatedCompiledBytes n <=? maxBytes limits)
  && (estimatedComputeCost n <=? maxCompute limits).

(** The unit opened by a node. *)
Definition open_unit (n : Node) : UnitGroup :=
  {| nodeSubset := [n];
     estimatedBytes := estimatedCompiledBytes n;
     estimatedCompute := estimatedComputeCost n |}.

(** Whether the running unit can take one more node. *)
Definition has_room (limits : Limits) (u : UnitGroup) (n : Node) : bool :=
  (estimatedBytes u + estimatedCompiledBytes n <=? maxBytes limits)
  && (estimatedCompute u + estimatedComputeCost n <=? maxCompute limits).

Definition add_node (u : UnitGroup) (n : Node) : UnitGroup :=
  {| nodeSubset := nodeSubset u ++ [n];
     estimatedBytes := estimatedBytes u + estimatedCompiledBytes n;
     estimatedCompute := estimatedCompute u + estimatedComputeCost n |}.

(** The summed estimates of a list of nodes. *)
Definition total_bytes (ns : list Node) : N :=
  fold_right (fun n acc => estimatedCompiledBytes n + acc) 0 ns.

Definition total_compute (ns : list Node) : N :=
  fold_right (fun n acc => estimatedComputeCost n + acc) 0 ns.

(** A unit whose recorded estimates are the sums over its nodes and stay
    within both limits. *)
Definition within_budget (limits : Limits) (u : UnitGroup) : Prop :=
  estimatedBytes u = total_bytes (nodeSubset u)
  /\ estimatedCompute u = total_compute (nodeSubset u)
  /\ estimatedBytes u <= maxBytes limits
  /\ estimatedCompute u <= maxCompute limits.

(** Modelled from the spec: the greedy pass of the partitioner, which no
    source file implements.  [current] is the running unit: nodes are
    accumulated while both running totals stay within the limits; when
    either would overflow, the unit is closed and the node opens the
    next one; a node that exceeds a limit on its own surfaces
    [NodeExceedsBudget]. *)
Fixpoint pack (limits : Limits) (current : UnitGroup)
  (nodes : list Node) : PartitionError + list UnitGroup :=
  match nodes with
  | [] => inr [current]
  | n :: rest =>
      if packable limits n then
        if has_room limits current n
        then pack limits (add_node current n) rest
        else match pack limits (open_unit n) rest with
             | inr units => inr (current :: units)
             | inl e => inl e
             end
      else inl (NodeExceedsBudget n)
  end.

(** Modelled from the spec: [partition(nodes, limits)], the ordered list
    of unit groups of the greedy, order-preserving packing; no function
    of the sources computes it. *)
Definition partition (nodes : list Node) (limits : Limits)
  : PartitionError + list UnitGroup :=
  match nodes with
  | [] => inr []
  | n :: rest =>
      if packable limits n then pack limits (open_unit n) rest
      else inl (NodeExceedsBudget n)
  end.

End Partitioner.

(** ** The reference formulas of the specification

    Second definitions that follow the wording of the specification; the
    theorems of Part II compare the code above with them. *)

Module Spec.
Import JS.

(** [encodeCentered(raw, scale) = clamp(round(128 + raw*scale), 0, 255)]. *)
Definition encodeCentered (raw scale : Q) : Z :=
  Z.max 0 (Z.min 255 (Math_round (128 + raw * scale))).

(** The classification rules in the order in which they are tried; the
    first rule whose guard holds decides, and [hold] is the fallback. *)
Definition signal_rules : list ((Z -> Z -> bool) * string) := [
  (fun direction confidence => confidence <? 100, "hold"%string);
  (fun direction confidence => 50 <? direction, "strong_buy"%string);
  (fun direction confidence => 0 <? direction, "buy"%string);
  (fun direction confidence => direction <? -50, "strong_sell"%string);
  (fun direction confidence => direction <? 0, "sell"%string)
].

Fixpoint first_rule (rules : list ((Z -> Z -> bool) * string))
  (direction confidence : Z) : string :=
  match rules with
  | [] => "hold"%string
  | (guard, verdict) :: rest =>
      if guard direction confidence then verdict
      else first_rule rest direction confidence
  end.

(** [payload[lo .. hi)]. *)
Definition byte_range (payload : list byte) (lo hi : Z) : list byte :=
  firstn (Z.to_nat (hi - lo)) (skipn (Z.to_nat lo) payload).

(** [ceil(len / chunkSize)] for a positive [chunkSize]. *)
Definition chunk_count (len chunkSize : Z) : Z :=
  (len + chunkSize - 1) / chunkSize.

(** Chunk [i] of a payload: its absolute offset [i * chunkSize] and the
    bytes [payload[i*chunkSize .. min((i+1)*chunkSize, length))]. *)
Definition chunk (payload : list byte) (chunkSize : Z) (i : nat)
  : Z * list byte :=
  let len := Z.of_nat (length payload) in
  (Z.of_nat i * chunkSize,
   byte_range payload (Z.of_nat i * chunkSize)
     (Z.min ((Z.of_nat i + 1) * chunkSize) len)).

(** Where the first [i] chunks of a payload end: [min(i*chunkSize,
    length)]. *)
Definition chunks_end (payload : list byte) (chunkSize : Z) (i : nat)
  : Z :=
  Z.min (Z.of_nat i * chunkSize) (Z.of_nat (length payload)).

(** All chunks of a payload, by increasing index. *)
Definition chunks (payload : list byte) (chunkSize : Z)
  : list (Z * list byte) :=
  map (chunk payload chunkSize)
      (seq 0 (Z.to_nat (chunk_count (Z.of_nat (length payload))
                                    chunkSize))).

(** [e] is [x] rounded down to an integer. *)
Definition rounded_down (x : Q) (e : Z) : Prop :=
  (inject_Z e <= x /\ x < inject_Z e + 1)%Q.

(** [e] lies in the byte range and sits on the bound that [x] crosses. *)
Definition saturating (x : Q) (e : Z) : Prop :=
  0 <= e <= 255
  /\ ((x < 0)%Q -> e = 0)
  /\ ((255 <= x)%Q -> e = 255).

End Spec.

(** ** Notions used to state the properties of Part III *)

Module Notions.
Import JS.

(** The signal on the other side of the market. *)
Definition opposite_signal (signal : string) : string :=
  if String.eqb signal "strong_buy" then "strong_sell"%string
  else if String.eqb signal "buy" then "sell"%string
  else if String.eqb signal "sell" then "buy"%string
  else if String.eqb signal "strong_sell" then "strong_buy"%string
  else signal.

(** The unsigned little-endian value of a run of bytes. *)
Definition le_unsigned (bytes : list byte) : Z :=
  fold_right (fun b acc => byte_val b + 256 * acc) 0 bytes.

End Notions.

(* ===================================================================== *)
(** * Part II: properties                                                 *)
(* ===================================================================== *)

(** ** Bytes and 32-bit reads *)

Section Bytes.
Import JS.

Lemma byte_val_range (b : byte) : 0 <= byte_val b <= 255.
Proof.
  unfold byte_val. pose proof (Byte.to_N_bounded b). lia.
Qed.

Lemma byte_val_byte_of (z : Z) : byte_val (byte_of z) = z mod 256.
Proof.
  unfold byte_val, byte_of.
  assert (Hm : 0 <= z mod 256 < 256) by (apply Z.mod_pos_bound; lia).
  destruct (Byte.of_N (Z.to_N (z mod 256))) as [b|] eqn:E.
  - apply Byte.to_of_N in E. rewrite E. apply Z2N.id. lia.
  - apply Byte.of_N_None_iff in E. lia.
Qed.

Lemma readInt32LE_unfold (b0 b1 b2 b3 : byte) (rest : list byte) :
  readInt32LE (b0 :: b1 :: b2 :: b3 :: rest)
  = let u := byte_val b0 + byte_val b1 * 256
             + byte_val b2 * 65536 + byte_val b3 * 16777216 in
    Some (if u <? 2147483648 then u else u - 4294967296).
Proof. reflexivity. Qed.

Lemma readInt32LE_range (buf : list byte) (value : Z) :
  readInt32LE buf = Some value -> - 2147483648 <= value < 2147483648.
Proof.
  destruct buf as [|b0 [|b1 [|b2 [|b3 rest]]]]; try discriminate.
  rewrite readInt32LE_unfold. cbv zeta. intros H. injection H as <-.
  pose proof (byte_val_range b0). pose proof (byte_val_range b1).
  pose proof (byte_val_range b2). pose proof (byte_val_range b3).
  match goal with |- context [if ?c then _ else _] => destruct c eqn:E end;
    [apply Z.ltb_lt in E | apply Z.ltb_ge in E]; lia.
Qed.

(** Every 32-bit value is what [readInt32LE] reads from its two's
    complement bytes. *)
Lemma readInt32LE_onto (value : Z) :
  - 2147483648 <= value < 2147483648 ->
  readInt32LE [byte_of value; byte_of (value / 256);
               byte_of (value / 65536); byte_of (value / 16777216)]
  = Some value.
Proof.
  intros Hr. rewrite readInt32LE_unfold. cbv zeta.
  rewrite !byte_val_byte_of. f_equal.
  match goal with |- (if ?c then _ else _) = _ => destruct c eqn:E end;
    [apply Z.ltb_lt in E | apply Z.ltb_ge in E];
    Z.div_mod_to_equations; lia.
Qed.

End Bytes.

(** ** The result decoder *)

Section Decoder.
Import JS Codec.

Lemma parseResult_some (buf : list byte) (value : Z) :
  readInt32LE buf = Some value ->
  parseResult (Some buf)
  = inr (Some {|
      direction := if value / 1000 >? 0 then 1
                   else if value / 1000 <? 0 then -1 else 0;
      rawDirection := value / 1000;
      confidence := Z.abs (Z.rem value 1000);
      signal := getSignal (value / 1000) (Z.abs (Z.rem value 1000)) |}).
Proof.
  intros H. unfold parseResult. rewrite H. reflexivity.
Qed.

Lemma sign_of_quotient (q : Z) :
  (if q >? 0 then 1 else if q <? 0 then -1 else 0) = Z.sgn q.
Proof.
  destruct (Z.gtb_spec q 0); [|destruct (Z.ltb_spec q 0)]; lia.
Qed.

(** C1, as stated, fails: for the packed value 21184 the [direction]
    field of the decoded object is the sign 1; the quotient 21 is not
    what that field holds. *)
Lemma parseResult_direction_field_21184 :
  readInt32LE [xc0; x52; x00; x00] = Some 21184
  /\ ~ (exists r, parseResult (Some [xc0; x52; x00; x00]) = inr (Some r)
                  /\ direction r = 21).
Proof.
  split; [reflexivity|].
  intros [r [Hr Hd]]. vm_compute in Hr. injection Hr as <-.
  discriminate Hd.
Qed.

(** C1, amended: the quotient of the packed value is the [rawDirection]
    field.  Decoding 21184 yields rawDirection 21, confidence 184 and
    signal buy; -75123 yields rawDirection -76, confidence 123 and
    strong_sell; 500 yields 0, 500 and hold; 99 yields 0, 99 and hold.
    For every buffer that reads as the 32-bit value [value]:
    rawDirection is floor(value/1000), confidence is the absolute value
    of the truncating remainder of value by 1000, the [direction] field
    is the sign of rawDirection, and the signal is classified from
    rawDirection and confidence. *)
Theorem parseResult_decodes_rawDirection :
  (parseResult (Some [xc0; x52; x00; x00])
   = inr (Some {| direction := 1; rawDirection := 21;
                  confidence := 184; signal := "buy" |})
   /\ readInt32LE [xc0; x52; x00; x00] = Some 21184)
  /\ (parseResult (Some [x8d; xda; xfe; xff])
      = inr (Some {| direction := -1; rawDirection := -76;
                     confidence := 123; signal := "strong_sell" |})
      /\ readInt32LE [x8d; xda; xfe; xff] = Some (-75123))
  /\ (parseResult (Some [xf4; x01; x00; x00])
      = inr (Some {| direction := 0; rawDirection := 0;
                     confidence := 500; signal := "hold" |})
      /\ readInt32LE [xf4; x01; x00; x00] = Some 500)
  /\ (parseResult (Some [x63; x00; x00; x00])
      = inr (Some {| direction := 0; rawDirection := 0;
                     confidence := 99; signal := "hold" |})
      /\ readInt32LE [x63; x00; x00; x00] = Some 99)
  /\ forall (buf : list byte) (value : Z),
       readInt32LE buf = Some value ->
       exists r,
         parseResult (Some buf) = inr (Some r)
         /\ 1000 * rawDirection r <= value < 1000 * rawDirection r + 1000
         /\ confidence r = Z.abs (value - 1000 * Z.quot value 1000)
         /\ 0 <= confidence r < 1000
         /\ direction r = Z.sgn (rawDirection r)
         /\ signal r = getSignal (rawDirection r) (confidence r).
Proof.
  repeat split; try reflexivity.
  intros buf value H. rewrite (parseResult_some _ _ H).
  eexists. split; [reflexivity|]. cbn [rawDirection confidence direction
                                       signal].
  pose proof (Z.quot_rem value 1000 ltac:(lia)) as Hqr.
  pose proof (Z.rem_bound_abs value 1000) as Hb.
  repeat split.
  - Z.div_mod_to_equations; lia.
  - Z.div_mod_to_equations; lia.
  - f_equal. lia.
  - lia.
  - assert (Z.abs (Z.rem value 1000) < Z.abs 1000)
      by (apply Z.rem_bound_abs; lia). lia.
  - apply sign_of_quotient.
Qed.

Lemma parseResult_decodes_rawDirection_witness :
  exists r,
    parseResult (Some [x8d; xda; xfe; xff]) = inr (Some r)
    /\ 1000 * rawDirection r <= -75123 < 1000 * rawDirection r + 1000
    /\ confidence r = Z.abs (-75123 - 1000 * Z.quot (-75123) 1000)
    /\ 0 <= confidence r < 1000
    /\ direction r = Z.sgn (rawDirection r)
    /\ signal r = getSignal (rawDirection r) (confidence r).
Proof.
  apply (proj2 (proj2 (proj2 (proj2 parseResult_decodes_rawDirection)))
           [x8d; xda; xfe; xff] (-75123)).
  reflexivity.
Defined.

(** C10: for every four-byte return buffer, read as the 32-bit value
    [value], the [direction] field of the result is only the sign of the
    quotient floor(value/1000) (1 when it is positive, -1 when it is
    negative, 0 otherwise), the quotient itself is the [rawDirection]
    field, and a missing return buffer gives [null]. *)
Theorem parseResult_direction_is_sign :
  parseResult None = inr None
  /\ forall b0 b1 b2 b3 : byte,
       exists value r,
         readInt32LE [b0; b1; b2; b3] = Some value
         /\ - 2147483648 <= value < 2147483648
         /\ parseResult (Some [b0; b1; b2; b3]) = inr (Some r)
         /\ rawDirection r = value / 1000
         /\ 1000 * rawDirection r <= value < 1000 * rawDirection r + 1000
         /\ (0 < rawDirection r -> direction r = 1)
         /\ (rawDirection r < 0 -> direction r = -1)
         /\ (rawDirection r = 0 -> direction r = 0).
Proof.
  split; [reflexivity|]. intros b0 b1 b2 b3.
  destruct (readInt32LE [b0; b1; b2; b3]) as [value|] eqn:H;
    [|discriminate H].
  exists value. eexists. split; [reflexivity|].
  split; [exact (readInt32LE_range _ _ H)|].
  split; [exact (parseResult_some _ _ H)|].
  cbn [rawDirection direction]. rewrite sign_of_quotient.
  split; [reflexivity|].
  split; [Z.div_mod_to_equations; lia|].
  repeat split; intros; lia.
Qed.

Lemma parseResult_direction_is_sign_witness :
  exists value r,
    readInt32LE [x8d; xda; xfe; xff] = Some value
    /\ - 2147483648 <= value < 2147483648
    /\ parseResult (Some [x8d; xda; xfe; xff]) = inr (Some r)
    /\ rawDirection r = value / 1000
    /\ 1000 * rawDirection r <= value < 1000 * rawDirection r + 1000
    /\ (0 < rawDirection r -> direction r = 1)
    /\ (rawDirection r < 0 -> direction r = -1)
    /\ (rawDirection r = 0 -> direction r = 0).
Proof.
  exact (proj2 parseResult_direction_is_sign x8d xda xfe xff).
Defined.

(** C6: for every direction and confidence the signal is the verdict of
    the first rule that fires in the order confidence < 100 (hold),
    direction > 50 (strong_buy), direction > 0 (buy), direction < -50
    (strong_sell), direction < 0 (sell), and hold when none fires; in
    particular a confidence below 100 gives hold whatever the
    direction. *)
Theorem getSignal_rule_order (direction confidence : Z) :
  getSignal direction confidence
  = Spec.first_rule Spec.signal_rules direction confidence
  /\ (confidence < 100 -> getSignal direction confidence = "hold"%string)
  /\ (100 <= confidence -> 50 < direction ->
      getSignal direction confidence = "strong_buy"%string)
  /\ (100 <= confidence -> 0 < direction <= 50 ->
      getSignal direction confidence = "buy"%string)
  /\ (100 <= confidence -> direction < -50 ->
      getSignal direction confidence = "strong_sell"%string)
  /\ (100 <= confidence -> -50 <= direction < 0 ->
      getSignal direction confidence = "sell"%string)
  /\ (100 <= confidence -> direction = 0 ->
      getSignal direction confidence = "hold"%string).
Proof.
  unfold getSignal, Spec.first_rule, Spec.signal_rules.
  rewrite !Z.gtb_ltb.
  destruct (Z.ltb_spec confidence 100);
    destruct (Z.ltb_spec 50 direction);
    destruct (Z.ltb_spec 0 direction);
    destruct (Z.ltb_spec direction (-50));
    destruct (Z.ltb_spec direction 0);
    repeat split; intros; try reflexivity; lia.
Qed.

Lemma getSignal_rule_order_witness :
  getSignal 60 99 = "hold"%string
  /\ getSignal 60 100 = "strong_buy"%string
  /\ getSignal (-51) 100 = "strong_sell"%string.
Proof.
  split; [apply (proj1 (proj2 (getSignal_rule_order 60 99))); lia|].
  split.
  - apply (proj1 (proj2 (proj2 (getSignal_rule_order 60 100)))); lia.
  - apply (proj1 (proj2 (proj2 (proj2 (proj2
             (getSignal_rule_order (-51) 100)))))); lia.
Defined.

End Decoder.

(** ** The feature encoders *)

Section Encoders.
Import JS Codec.

Lemma clamp_range (v : Z) : 0 <= clamp v <= 255.
Proof. unfold clamp. lia. Qed.

Lemma floor_rounds_down (x : Q) : Spec.rounded_down x (Math_floor x).
Proof.
  unfold Spec.rounded_down, Math_floor. split.
  - apply Qfloor_le.
  - pose proof (Qlt_floor x) as H. rewrite inject_Z_plus in H. exact H.
Qed.

Lemma floor_negative (x : Q) : (x < 0)%Q -> Math_floor x < 0.
Proof.
  intros H. destruct (floor_rounds_down x) as [Hl _].
  assert (Hlt : (inject_Z (Math_floor x) < inject_Z 0)%Q)
    by (eapply Qle_lt_trans; [exact Hl | exact H]).
  rewrite <- Zlt_Qlt in Hlt. exact Hlt.
Qed.

Lemma floor_at_least (x : Q) (n : Z) :
  (inject_Z n <= x)%Q -> n <= Math_floor x.
Proof.
  intros H. unfold Math_floor. rewrite <- (Qfloor_Z n).
  apply Qfloor_resp_le. exact H.
Qed.

Lemma clamp_floor_saturating (x : Q) :
  Spec.saturating x (clamp (Math_floor x)).
Proof.
  unfold Spec.saturating. split; [apply clamp_range|]. split; intros H.
  - apply floor_negative in H. unfold clamp. lia.
  - apply (floor_at_least x 255) in H. unfold clamp. lia.
Qed.

(** Rounding to nearest never goes below rounding down, and exceeds it by
    at most one. *)
Lemma floor_le_round (x : Q) :
  Math_floor x <= Math_round x <= Math_floor x + 1.
Proof.
  unfold Math_floor, Math_round. split.
  - apply Qfloor_resp_le. lra.
  - pose proof (Qfloor_le (x + (1 # 2))) as Hr.
    pose proof (Qlt_floor x) as Hf. rewrite inject_Z_plus in Hf.
    assert (Hlt : (inject_Z (Qfloor (x + (1 # 2)))
                   < inject_Z (Qfloor x + 2))%Q).
    { rewrite inject_Z_plus.
      change (inject_Z 1) with 1%Q in Hf. change (inject_Z 2) with 2%Q.
      lra. }
    rewrite <- Zlt_Qlt in Hlt. lia.
Qed.

Lemma clamp_monotone (a b : Z) : a <= b -> clamp a <= clamp b.
Proof. unfold clamp. lia. Qed.

(** The shape shared by the three centered fields of
    [normalizeFeatures]. *)
Lemma centered_field_floors (raw scale : Q) :
  let x := (128 + raw * scale)%Q in
  let e := clamp (Math_floor x) in
  e = Z.max 0 (Z.min 255 (Qfloor x))
  /\ ((0 <= x)%Q -> (x < 256)%Q -> Spec.rounded_down x e)
  /\ e <= Spec.encodeCentered raw scale <= e + 1.
Proof.
  intros x e. split; [reflexivity|]. split.
  - intros H0 H256. subst e.
    assert (Hf : 0 <= Math_floor x) by (apply (floor_at_least x 0); exact H0).
    assert (Hu : Math_floor x < 256).
    { destruct (floor_rounds_down x) as [Hl _].
      assert (Hlt : (inject_Z (Math_floor x) < inject_Z 256)%Q)
        by (change (inject_Z 256) with 256%Q; lra).
      rewrite <- Zlt_Qlt in Hlt. exact Hlt. }
    replace (clamp (Math_floor x)) with (Math_floor x)
      by (unfold clamp; lia).
    apply floor_rounds_down.
  - subst e. unfold Spec.encodeCentered. fold x.
    pose proof (floor_le_round x). unfold clamp. lia.
Qed.






End Encoders.

(** ** The chunked deploy *)

Section ChunkedDeploy.
Import JS Deploy.

(** *** The 16-bit offset field *)

Lemma u16_bytes_decode (offset : Z) :
  0 <= offset <= 65535 ->
  Z.lor (byte_val (byte_of offset))
        (Z.shiftl (byte_val (byte_of (Z.shiftr offset 8))) 8) = offset.
Proof.
  intros Hr. rewrite !byte_val_byte_of.
  rewrite Z.shiftr_div_pow2 by lia. change (2 ^ 8) with 256.
  rewrite (Z.mod_small (offset / 256) 256)
    by (Z.div_mod_to_equations; lia).
  change 256 with (2 ^ 8). rewrite <- Z.shiftr_div_pow2 by lia.
  apply Z.bits_inj'. intros n Hn.
  rewrite Z.lor_spec, Z.shiftl_spec by lia.
  destruct (Z.ltb_spec n 8) as [Hlt|Hge].
  - rewrite Z.mod_pow2_bits_low by lia.
    rewrite (Z.testbit_neg_r _ (n - 8)) by lia.
    apply orb_false_r.
  - rewrite Z.mod_pow2_bits_high by lia.
    rewrite Z.shiftr_spec by lia.
    replace (n - 8 + 8) with n by lia. reflexivity.
Qed.

Lemma writeUInt16LE_some (offset : Z) :
  0 <= offset <= 65535 ->
  writeUInt16LE offset
  = Some [byte_of offset; byte_of (Z.shiftr offset 8)].
Proof.
  intros Hr. unfold writeUInt16LE.
  replace (0 <=? offset) with true by (symmetry; apply Z.leb_le; lia).
  replace (offset <=? 65535) with true by (symmetry; apply Z.leb_le; lia).
  reflexivity.
Qed.

Lemma writeUInt16LE_none (offset : Z) :
  65535 < offset -> writeUInt16LE offset = None.
Proof.
  intros Hr. unfold writeUInt16LE.
  replace (offset <=? 65535) with false by (symmetry; apply Z.leb_gt; lia).
  rewrite andb_false_r. reflexivity.
Qed.

(** *** Slices taken by the loop *)

Lemma slice_chunk (buf : list byte) (start size : Z) :
  0 <= start -> 0 <= size ->
  slice buf start (start + size)
  = firstn (Z.to_nat size) (skipn (Z.to_nat start) buf).
Proof.
  intros Hs Hz. unfold slice, slice_index.
  replace (start <? 0) with false by (symmetry; apply Z.ltb_ge; lia).
  replace (start + size <? 0) with false
    by (symmetry; apply Z.ltb_ge; lia).
  set (len := Z.of_nat (length buf)).
  destruct (Z.le_gt_cases len start) as [Hout|Hin].
  - rewrite (Z.min_r start len) by lia.
    rewrite !skipn_all2 by lia. rewrite !firstn_nil. reflexivity.
  - rewrite (Z.min_l start len) by lia.
    destruct (Z.le_gt_cases (start + size) len) as [Hfit|Hover].
    + rewrite Z.min_l by lia. do 2 f_equal. lia.
    + rewrite Z.min_r by lia.
      rewrite !firstn_all2; [reflexivity | |]; rewrite length_skipn; lia.
Qed.

(** *** Byte ranges and [sol_memcpy] *)

Lemma firstn_then_firstn (l : list byte) (m k : nat) :
  firstn m l ++ firstn k (skipn m l) = firstn (m + k) l.
Proof.
  revert l. induction m as [|m IH]; intros l; [reflexivity|].
  destruct l as [|b l]; [now rewrite !firstn_nil|].
  cbn [firstn skipn Nat.add app]. now rewrite IH.
Qed.

Lemma byte_range_length (payload : list byte) (lo hi : Z) :
  0 <= lo <= hi -> hi <= Z.of_nat (length payload) ->
  Z.of_nat (length (Spec.byte_range payload lo hi)) = hi - lo.
Proof.
  intros H1 H2. unfold Spec.byte_range.
  rewrite length_firstn, length_skipn. lia.
Qed.

Lemma byte_range_empty (payload : list byte) (lo : Z) :
  Spec.byte_range payload lo lo = [].
Proof.
  unfold Spec.byte_range. now rewrite Z.sub_diag.
Qed.

Lemma byte_range_app (payload : list byte) (a b c : Z) :
  0 <= a <= b -> b <= c ->
  Spec.byte_range payload a b ++ Spec.byte_range payload b c
  = Spec.byte_range payload a c.
Proof.
  intros H1 H2. unfold Spec.byte_range.
  replace (Z.to_nat b) with (Z.to_nat (b - a) + Z.to_nat a)%nat by lia.
  rewrite <- skipn_skipn, firstn_then_firstn. f_equal. lia.
Qed.

Lemma byte_range_all (payload : list byte) :
  Spec.byte_range payload 0 (Z.of_nat (length payload)) = payload.
Proof.
  unfold Spec.byte_range. cbn [Z.to_nat skipn].
  apply firstn_all2. lia.
Qed.

Lemma sol_memcpy_length (acct payload : list byte) (offset : Z) :
  0 <= offset ->
  offset + Z.of_nat (length payload) <= Z.of_nat (length acct) ->
  length (sol_memcpy acct offset payload) = length acct.
Proof.
  intros H1 H2. unfold sol_memcpy.
  rewrite !length_app, length_firstn, length_skipn. lia.
Qed.

Lemma sol_memcpy_nothing (acct : list byte) (offset : Z) :
  sol_memcpy acct offset [] = acct.
Proof.
  unfold sol_memcpy. cbn [length app]. rewrite Nat.add_0_r.
  apply firstn_skipn.
Qed.

Lemma sol_memcpy_app (acct b1 b2 : list byte) (offset : Z) :
  0 <= offset ->
  offset + Z.of_nat (length b1) + Z.of_nat (length b2)
  <= Z.of_nat (length acct) ->
  sol_memcpy (sol_memcpy acct offset b1)
             (offset + Z.of_nat (length b1)) b2
  = sol_memcpy acct offset (b1 ++ b2).
Proof.
  intros H1 H2. unfold sol_memcpy.
  set (o := Z.to_nat offset).
  replace (Z.to_nat (offset + Z.of_nat (length b1)))
    with (o + length b1)%nat by lia.
  assert (Ho : length (firstn o acct) = o)
    by (rewrite length_firstn; lia).
  rewrite (app_assoc (firstn o acct) b1).
  rewrite firstn_app.
  rewrite firstn_all2 by (rewrite length_app; lia).
  replace (o + length b1 - length (firstn o acct ++ b1))%nat with 0%nat
    by (rewrite length_app; lia).
  cbn [firstn]. rewrite app_nil_r.
  rewrite skipn_app.
  rewrite (skipn_all2 (firstn o acct ++ b1))
    by (rewrite length_app; lia).
  rewrite skipn_skipn, length_app, Ho, length_app.
  cbn [app]. rewrite <- !app_assoc. do 4 f_equal. lia.
Qed.

(** *** One write *)

Variable transportLimit : Z.

Lemma writeAccountDirect_calls (w : Chain) (chunk : list byte)
  (offset : Z) :
  calls (fst (writeAccountDirect transportLimit w chunk offset))
  = calls w ++ [(offset, chunk)].
Proof.
  unfold writeAccountDirect.
  destruct (writeUInt16LE offset) as [buf|]; [|reflexivity].
  destruct (sendAndConfirmTransaction _ _ _); reflexivity.
Qed.

Lemma writeAccountDirect_ok (w : Chain) (chunk : list byte) (offset : Z) :
  0 <= offset <= 65535 ->
  Z.of_nat (length chunk) <= transportLimit ->
  offset + Z.of_nat (length chunk) <= Z.of_nat (length (account w)) ->
  writeAccountDirect transportLimit w chunk offset
  = ({| account := sol_memcpy (account w) offset chunk;
        calls := calls w ++ [(offset, chunk)] |}, Resolved).
Proof.
  intros Ho Hl Hc. unfold writeAccountDirect.
  rewrite writeUInt16LE_some by exact Ho.
  cbn [account calls]. unfold sendAndConfirmTransaction.
  cbn [app length].
  replace (Z.of_nat (S (S (S (length chunk)))) - 3 >? transportLimit)
    with false by (symmetry; rewrite Z.gtb_ltb; apply Z.ltb_ge; lia).
  cbn [Byte.eqb MODE_WRITE_ACCOUNT]. unfold write_account_handler.
  rewrite (u16_bytes_decode offset Ho). cbv zeta.
  replace (offset + Z.of_nat (length chunk)
           >? Z.of_nat (length (account w)))
    with false by (symmetry; rewrite Z.gtb_ltb; apply Z.ltb_ge; lia).
  reflexivity.
Qed.

Lemma writeAccountDirect_overflow (w : Chain) (chunk : list byte)
  (offset : Z) :
  0 <= offset <= 65535 ->
  Z.of_nat (length (account w)) < offset + Z.of_nat (length chunk) ->
  writeAccountDirect transportLimit w chunk offset
  = ({| account := account w; calls := calls w ++ [(offset, chunk)] |},
     Rejected TransactionRejected).
Proof.
  intros Ho Hc. unfold writeAccountDirect.
  rewrite writeUInt16LE_some by exact Ho.
  cbn [account calls]. unfold sendAndConfirmTransaction.
  cbn [app length].
  destruct (Z.of_nat (S (S (S (length chunk)))) - 3 >? transportLimit);
    [reflexivity|].
  cbn [Byte.eqb MODE_WRITE_ACCOUNT]. unfold write_account_handler.
  rewrite (u16_bytes_decode offset Ho). cbv zeta.
  replace (offset + Z.of_nat (length chunk)
           >? Z.of_nat (length (account w)))
    with true by (symmetry; rewrite Z.gtb_ltb; apply Z.ltb_lt; lia).
  reflexivity.
Qed.

Lemma writeAccountDirect_out_of_range (w : Chain) (chunk : list byte)
  (offset : Z) :
  65535 < offset ->
  writeAccountDirect transportLimit w chunk offset
  = ({| account := account w; calls := calls w ++ [(offset, chunk)] |},
     Rejected ERR_OUT_OF_RANGE).
Proof.
  intros Ho. unfold writeAccountDirect.
  rewrite writeUInt16LE_none by exact Ho. reflexivity.
Qed.

(** *** The chunk plan *)

Lemma Math_ceil_div_positive (len chunkSize : Z) :
  0 < chunkSize ->
  Math_ceil_div len chunkSize = Finite (Spec.chunk_count len chunkSize).
Proof.
  intros Hc. unfold Math_ceil_div, Spec.chunk_count.
  replace (chunkSize =? 0) with false by (symmetry; apply Z.eqb_neq; lia).
  f_equal. Z.div_mod_to_equations. nia.
Qed.

Lemma chunk_count_index (len chunkSize i : Z) :
  0 < chunkSize ->
  i < Spec.chunk_count len chunkSize <-> i * chunkSize < len.
Proof.
  intros Hc. unfold Spec.chunk_count. Z.div_mod_to_equations. nia.
Qed.

Lemma chunk_count_nonneg (len chunkSize : Z) :
  0 < chunkSize -> 0 <= len -> 0 <= Spec.chunk_count len chunkSize.
Proof.
  intros Hc Hl. unfold Spec.chunk_count. apply Z.div_pos; lia.
Qed.

Lemma chunk_unfold (data : list byte) (chunkSize : Z) (i : nat) :
  Spec.chunk data chunkSize i
  = (Z.of_nat i * chunkSize, snd (Spec.chunk data chunkSize i)).
Proof. reflexivity. Qed.

Lemma slice_is_chunk (data : list byte) (chunkSize : Z) (i : nat) :
  0 < chunkSize ->
  slice data (Z.of_nat i * chunkSize) (Z.of_nat i * chunkSize + chunkSize)
  = snd (Spec.chunk data chunkSize i).
Proof.
  intros Hc. rewrite slice_chunk by nia.
  unfold Spec.chunk, Spec.byte_range. cbn [snd].
  set (len := Z.of_nat (length data)).
  set (o := Z.of_nat i * chunkSize).
  destruct (Z.le_gt_cases ((Z.of_nat i + 1) * chunkSize) len) as [Hf|Hp].
  - rewrite Z.min_l by lia. f_equal. lia.
  - rewrite Z.min_r by lia.
    rewrite !firstn_all2; [reflexivity | |];
      rewrite length_skipn; unfold len, o in *; nia.
Qed.

Lemma chunk_length (data : list byte) (chunkSize : Z) (i : nat) :
  0 < chunkSize ->
  Z.of_nat i * chunkSize <= Z.of_nat (length data) ->
  Z.of_nat (length (snd (Spec.chunk data chunkSize i)))
  = Z.min ((Z.of_nat i + 1) * chunkSize) (Z.of_nat (length data))
    - Z.of_nat i * chunkSize.
Proof.
  intros Hc Hi. unfold Spec.chunk. cbn [snd].
  apply byte_range_length; nia.
Qed.

(** *** The loop *)

(** Whatever the account and the outcome of each write, the loop calls
    [writeAccountDirect] on the chunks of the plan, one after the other,
    and stops at the first rejected write. *)
Lemma chunk_loop_calls (data : list byte) (chunkSize : Z) :
  0 < chunkSize ->
  let count := Spec.chunk_count (Z.of_nat (length data)) chunkSize in
  forall (fuel i : nat) (w : Chain),
    (i <= Z.to_nat count)%nat ->
    (Z.to_nat count - i < fuel)%nat ->
    exists w' out k,
      chunk_loop transportLimit fuel w data chunkSize (Finite count)
                 (Z.of_nat i) = Some (w', out)
      /\ (i <= k <= Z.to_nat count)%nat
      /\ calls w' = calls w
                    ++ map (Spec.chunk data chunkSize) (seq i (k - i))
      /\ (out = Resolved -> k = Z.to_nat count)
      /\ (i < Z.to_nat count -> i < k)%nat.
Proof.
  intros Hc count.
  assert (Hn : 0 <= count) by (apply chunk_count_nonneg; lia).
  induction fuel as [|fuel IH]; intros i w Hi Hf; [lia|].
  cbn [chunk_loop]. unfold lt_num.
  destruct (Z.ltb_spec (Z.of_nat i) count) as [Hlt|Hge].
  - rewrite slice_is_chunk by exact Hc.
    pose proof (writeAccountDirect_calls w
                  (snd (Spec.chunk data chunkSize i))
                  (Z.of_nat i * chunkSize)) as Hcalls.
    destruct (writeAccountDirect transportLimit w
                (snd (Spec.chunk data chunkSize i))
                (Z.of_nat i * chunkSize)) as [w1 [|e]].
    + cbn [fst] in Hcalls.
      replace (Z.of_nat i + 1) with (Z.of_nat (S i)) by lia.
      destruct (IH (S i) w1) as (w' & out & k & Hrun & Hk & Hcs & Hres & _);
        [lia | lia |].
      exists w', out, k. split; [exact Hrun|]. split; [lia|].
      split; [|split; [exact Hres | lia]].
      rewrite Hcs, Hcalls, <- app_assoc. f_equal.
      replace (k - i)%nat with (S (k - S i)) by lia.
      cbn [seq map app]. now rewrite <- chunk_unfold.
    + cbn [fst] in Hcalls.
      exists w1, (Rejected e), (S i). split; [reflexivity|].
      split; [lia|]. split; [|split; [discriminate | lia]].
      rewrite Hcalls. replace (S i - i)%nat with 1%nat by lia.
      cbn [seq map]. now rewrite <- chunk_unfold.
  - exists w, Resolved, i. split; [reflexivity|]. split; [lia|].
    split; [|split; [lia | lia]].
    rewrite Nat.sub_diag. cbn [seq map]. now rewrite app_nil_r.
Qed.

Lemma chunks_end_monotone (data : list byte) (chunkSize : Z) (i j : nat) :
  0 < chunkSize -> (i <= j)%nat ->
  Spec.chunks_end data chunkSize i <= Spec.chunks_end data chunkSize j.
Proof.
  intros Hc Hij. unfold Spec.chunks_end.
  assert (Z.of_nat i * chunkSize <= Z.of_nat j * chunkSize) by nia. lia.
Qed.

Lemma chunk_is_range (data : list byte) (chunkSize : Z) (i : nat) :
  Z.of_nat i * chunkSize <= Z.of_nat (length data) ->
  snd (Spec.chunk data chunkSize i)
  = Spec.byte_range data (Spec.chunks_end data chunkSize i)
      (Spec.chunks_end data chunkSize (S i)).
Proof.
  intros Hi. unfold Spec.chunk, Spec.chunks_end. cbn [snd].
  rewrite (Z.min_l (Z.of_nat i * chunkSize)) by exact Hi.
  replace (Z.of_nat (S i)) with (Z.of_nat i + 1) by lia. reflexivity.
Qed.

(** While the chunks fit the account, the 16-bit offset field and the
    transport limit, each write goes through: after [steps] iterations
    from index [i] the account holds the payload bytes of those chunks
    at their place and the loop stands at index [i + steps]. *)
Lemma chunk_loop_prefix (data : list byte) (chunkSize : Z) :
  0 < chunkSize <= transportLimit ->
  let count := Spec.chunk_count (Z.of_nat (length data)) chunkSize in
  let upto := Spec.chunks_end data chunkSize in
  forall (steps i fuel : nat) (w : Chain),
    Z.of_nat (i + steps) <= count ->
    upto (i + steps)%nat <= Z.of_nat (length (account w)) ->
    (Z.of_nat (i + steps) - 1) * chunkSize <= 65535 ->
    chunk_loop transportLimit (steps + fuel) w data chunkSize
               (Finite count) (Z.of_nat i)
    = chunk_loop transportLimit fuel
        {| account :=
             sol_memcpy (account w) (upto i)
               (Spec.byte_range data (upto i) (upto (i + steps)%nat));
           calls := calls w
                    ++ map (Spec.chunk data chunkSize) (seq i steps) |}
        data chunkSize (Finite count) (Z.of_nat (i + steps)).
Proof.
  intros Hc count upto.
  induction steps as [|steps IH]; intros i fuel w Hn Hcap Hoff.
  - rewrite Nat.add_0_r. cbn [Nat.add seq map].
    rewrite byte_range_empty, sol_memcpy_nothing, app_nil_r.
    destruct w; reflexivity.
  - assert (Hi : Z.of_nat i * chunkSize < Z.of_nat (length data))
      by (apply chunk_count_index; [lia | fold count; lia]).
    assert (Hui : upto i = Z.of_nat i * chunkSize)
      by (unfold upto, Spec.chunks_end; lia).
    pose proof (chunks_end_monotone data chunkSize (S i) (i + S steps)
                  ltac:(lia) ltac:(lia)) as Hmono.
    fold upto in Hmono.
    pose proof (chunk_is_range data chunkSize i ltac:(lia)) as Hrange.
    fold upto in Hrange.
    assert (Hlen : Z.of_nat (length (snd (Spec.chunk data chunkSize i)))
                   = upto (S i) - upto i).
    { rewrite Hrange. apply byte_range_length.
      - rewrite Hui. split; [nia|].
        unfold upto, Spec.chunks_end. nia.
      - unfold upto, Spec.chunks_end. lia. }
    assert (HuS : upto (S i) <= Z.of_nat i * chunkSize + chunkSize)
      by (unfold upto, Spec.chunks_end; nia).
    cbn [Nat.add chunk_loop]. unfold lt_num.
    replace (Z.of_nat i <? count) with true
      by (symmetry; apply Z.ltb_lt; lia).
    assert (Hoi : 0 <= Z.of_nat i * chunkSize <= 65535) by (split; nia).
    rewrite slice_is_chunk by lia.
    rewrite writeAccountDirect_ok by lia.
    replace (Z.of_nat i + 1) with (Z.of_nat (S i)) by lia.
    rewrite IH; cbn [account calls];
      [ | lia
        | rewrite sol_memcpy_length by lia;
          replace (S i + steps)%nat with (i + S steps)%nat by lia;
          exact Hcap
        | replace (S i + steps)%nat with (i + S steps)%nat by lia;
          exact Hoff ].
    replace (S i + steps)%nat with (i + S steps)%nat by lia.
    f_equal. f_equal.
    + replace (upto (S i))
        with (Z.of_nat i * chunkSize
              + Z.of_nat (length (snd (Spec.chunk data chunkSize i))))
        at 1 by lia.
      rewrite sol_memcpy_app.
      * rewrite Hui. f_equal. rewrite Hrange at 1. rewrite Hui.
        apply byte_range_app; [rewrite <- Hui; lia | exact Hmono].
      * nia.
      * rewrite byte_range_length;
          [lia | lia | unfold upto, Spec.chunks_end; lia].
    + rewrite <- app_assoc. reflexivity.
Qed.

Lemma firstn_seq_le (k n start : nat) :
  (k <= n)%nat -> firstn k (seq start n) = seq start k.
Proof.
  revert n start. induction k as [|k IH]; intros n start Hk;
    [reflexivity|].
  destruct n as [|n]; [lia|].
  cbn [seq firstn]. f_equal. apply IH. lia.
Qed.

Lemma chunks_firstn (data : list byte) (chunkSize : Z) (k : nat) :
  (k <= Z.to_nat (Spec.chunk_count (Z.of_nat (length data)) chunkSize))%nat
  -> firstn k (Spec.chunks data chunkSize)
     = map (Spec.chunk data chunkSize) (seq 0 k).
Proof.
  intros Hk. unfold Spec.chunks.
  rewrite firstn_map, firstn_seq_le by exact Hk. reflexivity.
Qed.

Lemma chunks_concat_prefix (data : list byte) (chunkSize : Z) (k : nat) :
  0 < chunkSize ->
  Z.of_nat k <= Spec.chunk_count (Z.of_nat (length data)) chunkSize ->
  concat (map snd (map (Spec.chunk data chunkSize) (seq 0 k)))
  = Spec.byte_range data 0 (Spec.chunks_end data chunkSize k).
Proof.
  intros Hc. induction k as [|k IH]; intros Hk.
  - cbn [seq map concat]. unfold Spec.chunks_end.
    rewrite Z.min_l by lia. now rewrite byte_range_empty.
  - assert (Hi : Z.of_nat k * chunkSize < Z.of_nat (length data))
      by (apply chunk_count_index; lia).
    rewrite seq_S, !map_app, concat_app, IH by lia.
    cbn [Nat.add map concat]. rewrite app_nil_r.
    rewrite chunk_is_range by lia.
    apply byte_range_app.
    + unfold Spec.chunks_end. nia.
    + apply chunks_end_monotone; lia.
Qed.

Lemma chunks_end_all (data : list byte) (chunkSize : Z) :
  0 < chunkSize ->
  Spec.chunks_end data chunkSize
    (Z.to_nat (Spec.chunk_count (Z.of_nat (length data)) chunkSize))
  = Z.of_nat (length data).
Proof.
  intros Hc. unfold Spec.chunks_end.
  pose proof (chunk_count_nonneg (Z.of_nat (length data)) chunkSize
                Hc ltac:(lia)) as Hn.
  rewrite Z2Nat.id by exact Hn. apply Z.min_r.
  unfold Spec.chunk_count in *. Z.div_mod_to_equations. nia.
Qed.

(** A deploy whose chunks all fit resolves with the payload in place. *)
Lemma writeToAccountChunked_resolves (payload : list byte)
  (chunkSize : Z) (fuel : nat) (w : Chain) :
  0 < chunkSize <= transportLimit ->
  let count := Spec.chunk_count (Z.of_nat (length payload)) chunkSize in
  Z.of_nat (length payload) <= Z.of_nat (length (account w)) ->
  (count - 1) * chunkSize <= 65535 ->
  (Z.to_nat count < fuel)%nat ->
  writeToAccountChunked transportLimit fuel w payload chunkSize
  = Some ({| account := payload ++ skipn (length payload) (account w);
             calls := calls w ++ Spec.chunks payload chunkSize |},
          Resolved).
Proof.
  intros Hc count Hcap Hoff Hfuel.
  assert (Hn : 0 <= count) by (apply chunk_count_nonneg; lia).
  unfold writeToAccountChunked.
  rewrite Math_ceil_div_positive by lia. fold count.
  replace fuel with (Z.to_nat count + (fuel - Z.to_nat count))%nat by lia.
  change 0 with (Z.of_nat 0).
  rewrite chunk_loop_prefix; cbn [Nat.add]; fold count;
    [ | exact Hc | lia
      | rewrite chunks_end_all by lia; exact Hcap
      | rewrite Z2Nat.id by exact Hn; exact Hoff ].
  destruct (fuel - Z.to_nat count)%nat as [|rest] eqn:E; [lia|].
  cbn [chunk_loop]. unfold lt_num.
  replace (Z.of_nat (Z.to_nat count) <? count) with false
    by (symmetry; apply Z.ltb_ge; lia).
  rewrite chunks_end_all by lia.
  do 2 f_equal. unfold Spec.chunks_end. rewrite Z.min_l by lia.
  cbn [Z.of_nat Z.mul]. rewrite byte_range_all.
  unfold sol_memcpy. reflexivity.
Qed.

(** C7, amended: for every payload and every chunk size with
    0 < chunkSize <= transportLimit whose chunk offsets all fit the
    16-bit offset field of the write instruction (last offset
    (ceil(length/chunkSize) - 1) * chunkSize <= 65535), the chunked
    deploy into a zero-initialised slot of capacity at least the payload
    length resolves, and the first payload.length bytes of the slot are
    then the payload, byte for byte; two such chunk sizes leave the same
    bytes in the slot. *)
Theorem chunked_deploy_roundtrip (payload : list byte)
  (chunkSize chunkSize' capacity : Z) (fuel : nat) :
  let len := Z.of_nat (length payload) in
  0 < chunkSize <= transportLimit ->
  0 < chunkSize' <= transportLimit ->
  len <= capacity ->
  (Spec.chunk_count len chunkSize - 1) * chunkSize <= 65535 ->
  (Spec.chunk_count len chunkSize' - 1) * chunkSize' <= 65535 ->
  (Z.to_nat (Spec.chunk_count len chunkSize) < fuel)%nat ->
  (Z.to_nat (Spec.chunk_count len chunkSize') < fuel)%nat ->
  exists w w',
    writeToAccountChunked transportLimit fuel (createAccount capacity)
      payload chunkSize = Some (w, Resolved)
    /\ writeToAccountChunked transportLimit fuel (createAccount capacity)
         payload chunkSize' = Some (w', Resolved)
    /\ firstn (length payload) (account w) = payload
    /\ firstn (length payload) (account w') = payload
    /\ account w = account w'.
Proof.
  intros len Hc Hc' Hcap Hoff Hoff' Hf Hf'.
  assert (Hlen : Z.of_nat (length payload)
                 <= Z.of_nat (length (account (createAccount capacity)))).
  { unfold createAccount. cbn [account]. rewrite repeat_length. lia. }
  eexists. eexists.
  split; [apply writeToAccountChunked_resolves; assumption|].
  split; [apply writeToAccountChunked_resolves; assumption|].
  cbn [account].
  rewrite firstn_app, Nat.sub_diag, firstn_all. cbn [firstn].
  rewrite app_nil_r. repeat split; reflexivity.
Qed.


(** C3, amended: the chunked deploy takes no capacity and checks none:
    there is no SlotTooSmall failure.  For every slot whose capacity is
    smaller than the payload (capacity at most 65535, 0 < chunkSize <=
    transportLimit) it first writes, in order, the floor(capacity /
    chunkSize) chunks that end within the capacity, and only the write of
    the next chunk is rejected, by the bounds check of the on-chain
    handler; the deploy stops there with the earlier chunks in place. *)
Theorem writeToAccountChunked_capacity_unchecked (payload : list byte)
  (chunkSize : Z) (fuel : nat) (w : Chain) :
  let capacity := Z.of_nat (length (account w)) in
  let fitting := Z.to_nat (capacity / chunkSize) in
  0 < chunkSize <= transportLimit ->
  capacity < Z.of_nat (length payload) ->
  capacity <= 65535 ->
  (fitting < fuel)%nat ->
  writeToAccountChunked transportLimit fuel w payload chunkSize
  = Some ({| account :=
               firstn (fitting * Z.to_nat chunkSize) payload
               ++ skipn (fitting * Z.to_nat chunkSize) (account w);
             calls := calls w
                      ++ firstn (S fitting)
                           (Spec.chunks payload chunkSize) |},
          Rejected TransactionRejected).
Proof.
  intros capacity fitting Hc Hsmall Hu16 Hfuel.
  set (count := Spec.chunk_count (Z.of_nat (length payload)) chunkSize).
  assert (Hq : 0 <= capacity / chunkSize)
    by (apply Z.div_pos; unfold capacity; lia).
  assert (Hk : Z.of_nat fitting = capacity / chunkSize)
    by (unfold fitting; lia).
  assert (Hkc : Z.of_nat fitting * chunkSize <= capacity
                < Z.of_nat fitting * chunkSize + chunkSize)
    by (rewrite Hk; Z.div_mod_to_equations; nia).
  assert (Hlt : Z.of_nat fitting < count)
    by (apply chunk_count_index; lia).
  assert (Hend : Spec.chunks_end payload chunkSize fitting
                 = Z.of_nat fitting * chunkSize)
    by (unfold Spec.chunks_end; lia).
  unfold writeToAccountChunked.
  rewrite Math_ceil_div_positive by lia. fold count.
  replace fuel with (fitting + (fuel - fitting))%nat by lia.
  change 0 with (Z.of_nat 0).
  rewrite chunk_loop_prefix; cbn [Nat.add]; fold count;
    [ | exact Hc | lia | rewrite Hend; fold capacity; lia | nia ].
  destruct (fuel - fitting)%nat as [|rest] eqn:E; [lia|].
  cbn [chunk_loop]. unfold lt_num.
  replace (Z.of_nat fitting <? count) with true
    by (symmetry; apply Z.ltb_lt; lia).
  rewrite slice_is_chunk by lia.
  assert (H0 : Spec.chunks_end payload chunkSize 0 = 0)
    by (unfold Spec.chunks_end; lia).
  rewrite Hend, H0.
  assert (Hrl : Z.of_nat (length (Spec.byte_range payload 0
                                    (Z.of_nat fitting * chunkSize)))
                = Z.of_nat fitting * chunkSize)
    by (rewrite byte_range_length; lia).
  assert (Hacct : sol_memcpy (account w) 0
                    (Spec.byte_range payload 0
                       (Z.of_nat fitting * chunkSize))
                  = firstn (fitting * Z.to_nat chunkSize) payload
                    ++ skipn (fitting * Z.to_nat chunkSize) (account w)).
  { assert (Hnat : Z.of_nat (fitting * Z.to_nat chunkSize)
                   = Z.of_nat fitting * chunkSize)
      by (rewrite Nat2Z.inj_mul, Z2Nat.id; lia).
    unfold sol_memcpy, Spec.byte_range. rewrite Z.sub_0_r.
    change (Z.to_nat 0) with 0%nat. cbn [firstn skipn app Nat.add].
    replace (Z.to_nat (Z.of_nat fitting * chunkSize))
      with (fitting * Z.to_nat chunkSize)%nat by lia.
    do 2 f_equal. rewrite length_firstn. lia. }
  rewrite writeAccountDirect_overflow; cbn [account calls].
  - rewrite Hacct. do 2 f_equal.
    rewrite <- app_assoc. f_equal.
    rewrite chunks_firstn by (fold count; lia).
    rewrite seq_S, map_app. reflexivity.
  - nia.
  - rewrite sol_memcpy_length by lia. fold capacity.
    rewrite chunk_length by lia. lia.
Qed.

End ChunkedDeploy.

Section ChunkedDeployCases.
Import JS Deploy.

(** C7, as stated, fails: a payload of 66000 bytes deployed with the
    default chunk size 900 into a zero-initialised slot of 66000 bytes
    stops at the chunk of offset 65700, which [writeUInt16LE] refuses;
    byte 65700 of the slot is still zero, so the slot does not read back
    as the payload. *)
Lemma chunked_deploy_offset_overflow :
  exists w,
    writeToAccountChunked 900 100 (createAccount 66000)
      (repeat x01 (Z.to_nat 66000)) default_chunkSize
    = Some (w, Rejected ERR_OUT_OF_RANGE)
    /\ firstn (length (repeat x01 (Z.to_nat 66000))) (account w)
       <> repeat x01 (Z.to_nat 66000).
Proof.
  assert (Hout : option_map snd
                   (writeToAccountChunked 900 100 (createAccount 66000)
                      (repeat x01 (Z.to_nat 66000)) default_chunkSize)
                 = Some (Rejected ERR_OUT_OF_RANGE))
    by (vm_compute; reflexivity).
  assert (Hbyte : option_map
                    (fun r => nth (Z.to_nat 65700) (account (fst r)) x01)
                    (writeToAccountChunked 900 100 (createAccount 66000)
                       (repeat x01 (Z.to_nat 66000)) default_chunkSize)
                  = Some x00)
    by (vm_compute; reflexivity).
  destruct (writeToAccountChunked 900 100 (createAccount 66000)
              (repeat x01 (Z.to_nat 66000)) default_chunkSize)
    as [[w out]|]; [|discriminate Hout].
  cbv beta iota delta [option_map snd fst] in Hout, Hbyte.
  injection Hout as ->. injection Hbyte as Hbyte.
  exists w. split; [reflexivity|]. intros H.
  apply (f_equal (fun l => nth (Z.to_nat 65700) l x01)) in H.
  rewrite nth_firstn, repeat_length in H.
  replace (Z.to_nat 65700 <? Z.to_nat 66000)%nat with true in H
    by (symmetry; apply Nat.ltb_lt; lia).
  rewrite nth_repeat in H.
  pose proof (eq_trans (eq_sym Hbyte) H) as Hbad. discriminate Hbad.
Qed.

Lemma chunked_deploy_roundtrip_witness :
  exists w w',
    writeToAccountChunked 900 10 (createAccount 8)
      [x01; x02; x03; x04; x05] 2 = Some (w, Resolved)
    /\ writeToAccountChunked 900 10 (createAccount 8)
         [x01; x02; x03; x04; x05] 3 = Some (w', Resolved)
    /\ firstn 5 (account w) = [x01; x02; x03; x04; x05]
    /\ firstn 5 (account w') = [x01; x02; x03; x04; x05]
    /\ account w = account w'.
Proof.
  apply (chunked_deploy_roundtrip 900 [x01; x02; x03; x04; x05] 2 3 8 10);
    first [ lia | vm_compute; first [ reflexivity | lia | discriminate ] ].
Defined.


(** C3, as stated, fails: a three-byte payload deployed in chunks of two
    bytes into a slot of capacity two is not refused up front; the first
    chunk is written into the slot, and the failure is the rejection of
    the second write. *)
Lemma small_slot_first_chunk_written :
  exists w,
    writeToAccountChunked 900 10 (createAccount 2) [x01; x02; x03] 2
    = Some (w, Rejected TransactionRejected)
    /\ account w = [x01; x02]
    /\ account w <> account (createAccount 2)
    /\ calls w = [(0, [x01; x02]); (2, [x03])].
Proof.
  eexists. split; [reflexivity|]. cbn [account calls].
  split; [reflexivity|]. split; [discriminate | reflexivity].
Qed.

Lemma writeToAccountChunked_capacity_unchecked_witness :
  writeToAccountChunked 900 10 (createAccount 2) [x01; x02; x03] 2
  = Some ({| account := [x01; x02];
             calls := [(0, [x01; x02]); (2, [x03])] |},
          Rejected TransactionRejected).
Proof.
  apply (writeToAccountChunked_capacity_unchecked 900 [x01; x02; x03] 2 10
           (createAccount 2));
    first [ lia | vm_compute; first [ reflexivity | lia | discriminate ] ].
Defined.

End ChunkedDeployCases.

(** ** The crank cycle *)

Section CrankCycle.
Import Crank.

Variable Pubkey : Type.
Variable Cluster : Type.
Variable compilePython : string -> option (list byte).
Variable accountMap : string -> option Pubkey.
Variable sendAndConfirmTransaction :
  Cluster -> Transaction Pubkey -> Cluster * option string.

Let step := crank_step Pubkey Cluster compilePython accountMap
              sendAndConfirmTransaction.
Let loop := crank_loop Pubkey Cluster compilePython accountMap
              sendAndConfirmTransaction.
Let plan := planned Pubkey compilePython accountMap.

(** The outcome line a script may leave. *)
Let reports (script : Script) (l : LogLine) : Prop :=
  l = Failed (name script) \/ exists sig, l = Confirmed sig.

Lemma crank_step_effect (w : World Pubkey Cluster) (script : Script) :
  submitted (step w script) = submitted w ++ plan script
  /\ exists lines l,
       console (step w script) = console w ++ lines
       /\ filter is_outcome lines = [l]
       /\ reports script l.
Proof.
  unfold step, plan, crank_step, planned, executePythonScript, log, reports.
  destruct (compilePython (file script)) as [bytecode|].
  - cbn [cluster submitted console].
    destruct (sendAndConfirmTransaction (cluster w) _) as [c' [sig|]];
      cbn [cluster submitted console];
      (split; [reflexivity|]); rewrite <- app_assoc;
      eexists; eexists; (split; [reflexivity|]); cbn [filter is_outcome app];
      (split; [reflexivity|]); eauto.
  - cbn [cluster submitted console]. split; [now rewrite app_nil_r|].
    eexists; eexists. split; [reflexivity|]. cbn [filter is_outcome].
    split; [reflexivity|]. now left.
Qed.

Lemma crank_loop_effect (scripts : list Script) :
  forall w : World Pubkey Cluster,
    submitted (loop scripts w) = submitted w ++ flat_map plan scripts
    /\ exists lines,
         console (loop scripts w) = console w ++ lines
         /\ Forall2 reports scripts (filter is_outcome lines).
Proof.
  induction scripts as [|script rest IH]; intros w.
  - cbn. rewrite app_nil_r. split; [reflexivity|].
    exists []. rewrite app_nil_r. split; [reflexivity | constructor].
  - unfold loop, crank_loop. cbn [fold_left flat_map].
    fold (step w script).
    destruct (crank_step_effect w script)
      as (Hs & lines1 & l & Hc & Hf & Hr).
    destruct (IH (step w script)) as (Hs' & lines2 & Hc' & Hf').
    unfold loop, crank_loop in Hs', Hc'.
    split.
    + rewrite Hs', Hs, <- app_assoc. reflexivity.
    + exists (lines1 ++ lines2). split.
      * rewrite Hc', Hc, <- app_assoc. reflexivity.
      * rewrite filter_app, Hf. cbn [app]. constructor; assumption.
Qed.


End CrankCycle.

Section CrankCases.
Import Crank.


End CrankCases.

(** ** The partitioner *)

Section Partition.
Import Partitioner.
Local Open Scope N_scope.

Variable limits : Limits.

Lemma open_unit_within (n : Node) :
  packable limits n = true -> within_budget limits (open_unit n).
Proof.
  unfold packable, within_budget, open_unit. intros H.
  apply andb_prop in H. destruct H as [Hb Hc].
  apply N.leb_le in Hb, Hc. cbn. repeat split; lia.
Qed.

Lemma total_bytes_app (a b : list Node) :
  total_bytes (a ++ b) = total_bytes a + total_bytes b.
Proof.
  induction a as [|n a IH]; [reflexivity|].
  change (total_bytes ((n :: a) ++ b))
    with (estimatedCompiledBytes n + total_bytes (a ++ b)).
  change (total_bytes (n :: a))
    with (estimatedCompiledBytes n + total_bytes a).
  rewrite IH. lia.
Qed.

Lemma total_compute_app (a b : list Node) :
  total_compute (a ++ b) = total_compute a + total_compute b.
Proof.
  induction a as [|n a IH]; [reflexivity|].
  change (total_compute ((n :: a) ++ b))
    with (estimatedComputeCost n + total_compute (a ++ b)).
  change (total_compute (n :: a))
    with (estimatedComputeCost n + total_compute a).
  rewrite IH. lia.
Qed.

Lemma add_node_within (u : UnitGroup) (n : Node) :
  within_budget limits u -> has_room limits u n = true ->
  within_budget limits (add_node u n).
Proof.
  unfold within_budget, has_room, add_node.
  intros (Hb & Hc & _ & _) H.
  apply andb_prop in H. destruct H as [Hrb Hrc].
  apply N.leb_le in Hrb, Hrc. cbn [nodeSubset estimatedBytes
                                   estimatedCompute].
  rewrite total_bytes_app, total_compute_app. cbn.
  repeat split; lia.
Qed.

Lemma pack_invariant (nodes : list Node) :
  forall (current : UnitGroup) (units : list UnitGroup),
    within_budget limits current ->
    pack limits current nodes = inr units ->
    Forall (within_budget limits) units
    /\ concat (map nodeSubset units) = nodeSubset current ++ nodes.
Proof.
  induction nodes as [|n rest IH]; intros current units Hw Hp.
  - cbn [pack] in Hp. injection Hp as <-. split.
    + constructor; [exact Hw | constructor].
    + cbn. reflexivity.
  - cbn [pack] in Hp.
    destruct (packable limits n) eqn:Hn; [|discriminate Hp].
    destruct (has_room limits current n) eqn:Hr.
    + destruct (IH _ _ (add_node_within _ _ Hw Hr) Hp) as [Hf Hc].
      split; [exact Hf|]. rewrite Hc. cbn [add_node nodeSubset].
      now rewrite <- app_assoc.
    + destruct (pack limits (open_unit n) rest) as [e|units'] eqn:Hp';
        [discriminate Hp|]. injection Hp as <-.
      destruct (IH _ _ (open_unit_within n Hn) Hp') as [Hf Hc].
      split; [constructor; assumption|].
      cbn [map concat]. rewrite Hc. reflexivity.
Qed.

Lemma pack_total (nodes : list Node) :
  forall current : UnitGroup,
    forallb (packable limits) nodes = true ->
    exists units, pack limits current nodes = inr units.
Proof.
  induction nodes as [|n rest IH]; intros current Hall.
  - eexists. reflexivity.
  - cbn [forallb] in Hall. apply andb_prop in Hall.
    destruct Hall as [Hn Hrest]. cbn [pack]. rewrite Hn.
    destruct (has_room limits current n).
    + apply IH. exact Hrest.
    + destruct (IH (open_unit n) Hrest) as [units Hu].
      rewrite Hu. eexists. reflexivity.
Qed.

Lemma pack_error (nodes : list Node) :
  forall (current : UnitGroup) (e : PartitionError),
    pack limits current nodes = inl e ->
    exists n, e = NodeExceedsBudget n /\ In n nodes
              /\ packable limits n = false.
Proof.
  induction nodes as [|n rest IH]; intros current e Hp.
  - discriminate Hp.
  - cbn [pack] in Hp. destruct (packable limits n) eqn:Hn.
    + destruct (has_room limits current n).
      * destruct (IH _ _ Hp) as (m & He & Hin & Hm).
        exists m. repeat split; [exact He | now right | exact Hm].
      * destruct (pack limits (open_unit n) rest) as [e'|units] eqn:Hp';
          [|discriminate Hp]. injection Hp as <-.
        destruct (IH _ _ Hp') as (m & He & Hin & Hm).
        exists m. repeat split; [exact He | now right | exact Hm].
    + injection Hp as <-. exists n.
      repeat split; [now left | exact Hn].
Qed.

End Partition.

Section PartitionClaims.
Import Partitioner.
Local Open Scope N_scope.

(** C9: for all node lists and limits, every unit that [partition]
    produces has estimated bytes and estimated compute (the sums over
    its nodes) within the corresponding limit, and the node subsets of
    the units, concatenated in order, are the original node list: no
    node is dropped, duplicated or reordered.  Units are produced
    whenever each node fits the limits on its own; otherwise the result
    is NodeExceedsBudget for a node of the list that does not fit. *)
Theorem partition_budget_invariant (nodes : list Node) (limits : Limits) :
  (forall units : list UnitGroup,
     partition nodes limits = inr units ->
     Forall (fun u =>
               estimatedBytes u = total_bytes (nodeSubset u)
               /\ estimatedCompute u = total_compute (nodeSubset u)
               /\ estimatedBytes u <= maxBytes limits
               /\ estimatedCompute u <= maxCompute limits) units
     /\ concat (map nodeSubset units) = nodes)
  /\ (forallb (packable limits) nodes = true ->
      exists units, partition nodes limits = inr units)
  /\ (forall e : PartitionError,
        partition nodes limits = inl e ->
        exists n, e = NodeExceedsBudget n /\ In n nodes
                  /\ packable limits n = false).
Proof.
  destruct nodes as [|n rest]; cbn [partition].
  - split; [|split].
    + intros units H. injection H as <-. split; [constructor | reflexivity].
    + intros _. eexists. reflexivity.
    + intros e H. discriminate H.
  - destruct (packable limits n) eqn:Hn.
    + split; [|split].
      * intros units H.
        apply (pack_invariant limits rest (open_unit n) units
                 (open_unit_within limits n Hn) H).
      * intros Hall. cbn [forallb] in Hall. apply andb_prop in Hall.
        apply pack_total. apply Hall.
      * intros e H. destruct (pack_error limits rest _ _ H)
          as (m & He & Hin & Hm).
        exists m. repeat split; [exact He | now right | exact Hm].
    + split; [|split].
      * intros units H. discriminate H.
      * intros Hall. cbn [forallb] in Hall. rewrite Hn in Hall.
        discriminate Hall.
      * intros e H. injection H as <-. exists n.
        repeat split; [now left | exact Hn].
Qed.

Lemma partition_budget_invariant_witness :
  let node i b c := {| node_id := i; estimatedCompiledBytes := b;
                       estimatedComputeCost := c |} in
  let nodes := [node 0%nat 400 5; node 1%nat 500 5; node 2%nat 300 9] in
  let limits := {| maxBytes := 900; maxCompute := 14 |} in
  partition nodes limits
  = inr [ {| nodeSubset := [node 0%nat 400 5; node 1%nat 500 5];
             estimatedBytes := 900; estimatedCompute := 10 |};
          {| nodeSubset := [node 2%nat 300 9];
             estimatedBytes := 300; estimatedCompute := 9 |} ]
  /\ concat (map nodeSubset
               [ {| nodeSubset := [node 0%nat 400 5; node 1%nat 500 5];
                    estimatedBytes := 900; estimatedCompute := 10 |};
                 {| nodeSubset := [node 2%nat 300 9];
                    estimatedBytes := 300; estimatedCompute := 9 |} ])
     = nodes.
Proof.
  intros node nodes limits. split; [reflexivity|].
  apply (proj1 (partition_budget_invariant nodes limits)).
  reflexivity.
Defined.

End PartitionClaims.


(* ===================================================================== *)
(** * Part III: further properties of the same files                      *)
(* ===================================================================== *)

(** ** The SDK beyond the decoder *)

Section SdkHelpers.
Import JS Codec.

Lemma byte_of_in_range (z : Z) :
  0 <= z <= 255 -> byte_val (byte_of z) = z.
Proof.
  intros H. rewrite byte_val_byte_of. apply Z.mod_small. lia.
Qed.



(** X2: how the decoded pair relates to the packed value.  For a
    non-negative value, value = rawDirection*1000 + confidence.  For a
    negative value the floor quotient and the absolute truncating
    remainder recombine differently: value = rawDirection*1000 when the
    confidence is 0, and value = rawDirection*1000 + (1000 - confidence)
    otherwise, which is rawDirection*1000 + confidence only when the
    confidence is 500. *)
Theorem parseResult_recombination (buf : list byte) (value : Z)
  (r : Prediction) :
  readInt32LE buf = Some value ->
  parseResult (Some buf) = inr (Some r) ->
  (0 <= value -> value = rawDirection r * 1000 + confidence r)
  /\ (value < 0 -> confidence r = 0 -> value = rawDirection r * 1000)
  /\ (value < 0 -> confidence r <> 0 ->
      value = rawDirection r * 1000 + (1000 - confidence r)
      /\ (value = rawDirection r * 1000 + confidence r
          <-> confidence r = 500)).
Proof.
  intros Hv Hp. rewrite (parseResult_some _ _ Hv) in Hp.
  injection Hp as <-. cbn [rawDirection confidence].
  pose proof (Z.quot_rem value 1000 ltac:(lia)) as Hqr.
  assert (Hb : Z.abs (Z.rem value 1000) < 1000)
    by (apply (Z.rem_bound_abs value 1000); lia).
  split; [|split].
  - intros H. pose proof (Z.rem_nonneg value 1000 ltac:(lia) ltac:(lia)).
    Z.div_mod_to_equations; lia.
  - intros H H0. Z.div_mod_to_equations; lia.
  - intros H H0.
    pose proof (Z.rem_nonpos value 1000 ltac:(lia) ltac:(lia)).
    assert (Hv' : value = value / 1000 * 1000
                          + (1000 - Z.abs (Z.rem value 1000)))
      by (Z.div_mod_to_equations; lia).
    split; [exact Hv'|]. lia.
Qed.

Lemma parseResult_recombination_witness :
  -75123 = (-76) * 1000 + (1000 - 123)
  /\ (-75123 = (-76) * 1000 + 123 <-> 123 = 500).
Proof.
  apply (proj2 (proj2
           (parseResult_recombination [x8d; xda; xfe; xff] (-75123)
              {| direction := -1; rawDirection := -76; confidence := 123;
                 signal := "strong_sell" |} eq_refl eq_refl)));
    [reflexivity | discriminate].
Defined.

(** X3: the classification is symmetric in the direction: negating the
    direction turns strong_buy into strong_sell, buy into sell and back,
    and leaves hold as it is, whatever the confidence. *)
Theorem getSignal_mirror (direction confidence : Z) :
  getSignal (- direction) confidence
  = Notions.opposite_signal (getSignal direction confidence).
Proof.
  unfold getSignal. rewrite !Z.gtb_ltb.
  destruct (Z.ltb_spec confidence 100); [reflexivity|].
  destruct (Z.ltb_spec 50 direction);
    destruct (Z.ltb_spec 0 direction);
    destruct (Z.ltb_spec direction (-50));
    destruct (Z.ltb_spec direction 0);
    destruct (Z.ltb_spec 50 (- direction));
    destruct (Z.ltb_spec 0 (- direction));
    destruct (Z.ltb_spec (- direction) (-50));
    destruct (Z.ltb_spec (- direction) 0);
    try reflexivity; lia.
Qed.

(** X4: on every decoded result the helper predicates agree with the
    signal: a bullish result (isBullish) has signal buy or strong_buy, a
    bearish one sell or strong_sell, no result is both, and a result of
    high confidence (default threshold 180) has signal hold exactly when
    its rawDirection is 0.  No decoded result passes a threshold of 999
    or more. *)
Theorem prediction_helpers_agree_with_signal (buf : list byte)
  (r : Prediction) :
  parseResult (Some buf) = inr (Some r) ->
  (isBullish r = true ->
   signal r = "buy"%string \/ signal r = "strong_buy"%string)
  /\ (isBearish r = true ->
      signal r = "sell"%string \/ signal r = "strong_sell"%string)
  /\ isBullish r && isBearish r = false
  /\ (isHighConfidence r None = true ->
      (signal r = "hold"%string <-> rawDirection r = 0))
  /\ (forall t, 999 <= t -> isHighConfidence r (Some t) = false).
Proof.
  intros Hp. unfold parseResult in Hp.
  destruct (readInt32LE buf) as [value|]; [|discriminate Hp].
  injection Hp as <-.
  assert (Hb : Z.abs (Z.rem value 1000) < 1000)
    by (apply (Z.rem_bound_abs value 1000); lia).
  unfold isBullish, isBearish, isHighConfidence, getSignal.
  cbn [direction confidence signal rawDirection].
  rewrite !Z.gtb_ltb.
  set (q := value / 1000) in *. set (c := Z.abs (Z.rem value 1000)) in *.
  destruct (Z.ltb_spec 0 q); destruct (Z.ltb_spec q 0);
    destruct (Z.ltb_spec c 100); destruct (Z.ltb_spec 150 c);
    destruct (Z.ltb_spec 180 c); destruct (Z.ltb_spec 50 q);
    destruct (Z.ltb_spec q (-50)); try lia;
    cbn [andb Z.ltb Z.compare];
    (repeat split; try discriminate; try tauto; try lia;
     try (intros; apply Z.ltb_ge; lia);
     try (intros; discriminate)).
Qed.

Lemma prediction_helpers_agree_with_signal_witness :
  signal {| direction := 1; rawDirection := 21; confidence := 184;
            signal := "buy" |} = "buy"%string
  \/ signal {| direction := 1; rawDirection := 21; confidence := 184;
               signal := "buy" |} = "strong_buy"%string.
Proof.
  apply (proj1 (prediction_helpers_agree_with_signal [xc0; x52; x00; x00]
                  {| direction := 1; rawDirection := 21; confidence := 184;
                     signal := "buy" |} eq_refl)).
  reflexivity.
Defined.

End SdkHelpers.

Section SdkInstructions.
Import JS Codec.

Variable Pubkey : Type.

Lemma instruction_data_is_mode_then_bytecode (bytecode : list byte) :
  instruction_data bytecode = Some (x02 :: bytecode).
Proof.
  unfold instruction_data, Buffer_alloc.
  replace (Z.to_nat (1 + Z.of_nat (length bytecode)))
    with (S (length bytecode)) by lia.
  cbn [repeat]. unfold writeUInt8, MODE_EXECUTE_BYTECODE.
  cbn [length Nat.ltb Nat.leb Z.leb Z.compare andb firstn skipn app].
  change ((2 <=? 255) && true) with true. cbv iota.
  change (byte_of 2) with x02.
  unfold copy. cbn [length firstn skipn app Nat.sub Nat.add].
  rewrite repeat_length, Nat.sub_0_r, firstn_all.
  rewrite skipn_all2 by (rewrite repeat_length; lia).
  rewrite app_nil_r. reflexivity.
Qed.

(** X5: both instruction builders always succeed, and both put on the
    wire the mode byte 0x02 followed by the bytecode as it is, with no
    length prefix (so the data is one byte longer than the bytecode).
    The accounts are the payer, the weights and the hidden state in that
    order, the payer being the only signer; the two instructions differ
    in one flag only: the encoder may write the hidden-state account, the
    decoder may not. *)
Theorem encoder_decoder_instructions (program : Pubkey)
  (bytecode : list byte) (weightsAccount hiddenAccount payer : Pubkey) :
  exists enc dec,
    buildEncoderInstruction Pubkey program bytecode weightsAccount
      hiddenAccount payer = Some enc
    /\ buildDecoderInstruction Pubkey program bytecode weightsAccount
         hiddenAccount payer = Some dec
    /\ data enc = x02 :: bytecode
    /\ data dec = x02 :: bytecode
    /\ length (data enc) = S (length bytecode)
    /\ map pubkey (keys enc) = [payer; weightsAccount; hiddenAccount]
    /\ map pubkey (keys dec) = [payer; weightsAccount; hiddenAccount]
    /\ map isSigner (keys enc) = [true; false; false]
    /\ map isSigner (keys dec) = [true; false; false]
    /\ map isWritable (keys enc) = [true; false; true]
    /\ map isWritable (keys dec) = [true; false; false].
Proof.
  unfold buildEncoderInstruction, buildDecoderInstruction.
  rewrite instruction_data_is_mode_then_bytecode.
  eexists. eexists. repeat split; reflexivity.
Qed.

End SdkInstructions.

(** ** The data collector beyond the centered features *)

Section CollectorWindow.
Import JS Collector.

Lemma calculateFeatures_four (older : list Sample)
  (prev3 prev2 prev1 current : Sample) :
  calculateFeatures (older ++ [prev3; prev2; prev1; current])
  = calculateFeatures [prev3; prev2; prev1; current].
Proof.
  unfold calculateFeatures. rewrite rev_app_distr. reflexivity.
Qed.

Lemma last_four (history : list Sample) :
  (4 <= length history)%nat ->
  exists older prev3 prev2 prev1 current,
    history = older ++ [prev3; prev2; prev1; current].
Proof.
  intros H. rewrite <- (rev_involutive history).
  assert (Hl : (4 <= length (rev history))%nat)
    by (rewrite length_rev; exact H).
  destruct (rev history) as [|c [|p1 [|p2 [|p3 older]]]];
    cbn [length] in Hl; try lia.
  exists (rev older), p3, p2, p1, c. cbn [rev].
  rewrite <- !app_assoc. reflexivity.
Qed.

(** X6: [calculateFeatures] returns null exactly when the history holds
    fewer than four samples, and otherwise looks at the last four samples
    only: older entries of the window do not change the row. *)
Theorem calculateFeatures_window (history : list Sample) :
  (calculateFeatures history = None <-> (length history < 4)%nat)
  /\ (forall older prev3 prev2 prev1 current,
        history = older ++ [prev3; prev2; prev1; current] ->
        calculateFeatures history
        = calculateFeatures [prev3; prev2; prev1; current]
        /\ exists row,
             calculateFeatures history = Some row
             /\ r_timestamp row = timestamp current
             /\ r_liquidity row = liquidity current).
Proof.
  split.
  - split.
    + intros H. destruct (Nat.lt_ge_cases (length history) 4) as [Hl|Hl];
        [exact Hl|].
      destruct (last_four history Hl)
        as (older & p3 & p2 & p1 & c & ->).
      rewrite calculateFeatures_four in H. discriminate H.
    + intros H. unfold calculateFeatures.
      rewrite <- length_rev in H.
      destruct (rev history) as [|c [|p1 [|p2 [|p3 older]]]];
        try reflexivity. cbn [length] in H. lia.
  - intros older p3 p2 p1 c ->. rewrite calculateFeatures_four.
    split; [reflexivity|]. eexists. split; [reflexivity|].
    split; reflexivity.
Qed.

Lemma calculateFeatures_window_witness :
  let sample t p :=
    {| timestamp := t; pythPrice := p; dexPrice := p; liquidity := 30;
       spread := 0 |} in
  calculateFeatures
    ([sample 0 90%Q] ++ [sample 1 100%Q; sample 2 100%Q; sample 3 100%Q;
                         sample 4 102%Q])
  = calculateFeatures [sample 1 100%Q; sample 2 100%Q; sample 3 100%Q;
                       sample 4 102%Q].
Proof.
  intros sample.
  apply (proj2 (calculateFeatures_window _) [sample 0 90%Q]).
  reflexivity.
Defined.

Lemma round_clamp_range (v : Q) : 0 <= round_clamp v <= 255.
Proof. unfold round_clamp. lia. Qed.



End CollectorWindow.

Section CollectorFetch.
Import JS Collector.

Lemma gt_iff (a b : Q) : gt a b = true <-> (b < a)%Q.
Proof.
  unfold gt. split.
  - intros H. apply Qnot_le_lt. intros C. apply Qle_bool_iff in C.
    rewrite C in H. discriminate H.
  - intros H. destruct (Qle_bool a b) eqn:E; [|reflexivity].
    apply Qle_bool_iff in E. exfalso. exact (Qlt_not_le _ _ H E).
Qed.

Lemma change_above (p f c : Q) :
  (0 < p)%Q -> (c < (f - p) / p <-> p * (1 + c) < f)%Q.
Proof.
  intros Hp. rewrite <- (Qmult_lt_r c ((f - p) / p) p Hp).
  assert (Hd : ((f - p) / p * p == f - p)%Q)
    by (field; intros C; rewrite C in Hp; discriminate Hp).
  rewrite Hd. split; intros H; lra.
Qed.

Lemma change_below (p f c : Q) :
  (0 < p)%Q -> ((f - p) / p < c <-> f < p * (1 + c))%Q.
Proof.
  intros Hp. rewrite <- (Qmult_lt_r ((f - p) / p) c p Hp).
  assert (Hd : ((f - p) / p * p == f - p)%Q)
    by (field; intros C; rewrite C in Hp; discriminate Hp).
  rewrite Hd. split; intros H; lra.
Qed.



End CollectorFetch.

Section CollectorOnChainReads.
Import JS Collector.

Lemma halving_loop_bits (n : nat) :
  forall (fuel : nat) (s liq : Z),
    2 ^ Z.of_nat n <= s < 2 ^ (Z.of_nat n + 1) ->
    (n + 1 < fuel)%nat ->
    halving_loop fuel s liq = Some (liq + Z.of_nat n + 1).
Proof.
  induction n as [|n IH]; intros fuel s liq Hs Hf.
  - change (2 ^ Z.of_nat 0) with 1 in Hs.
    change (2 ^ (Z.of_nat 0 + 1)) with 2 in Hs.
    assert (s = 1) by lia. subst s.
    destruct fuel as [|[|fuel]]; try lia.
    cbn. f_equal. lia.
  - destruct fuel as [|fuel]; [lia|]. cbn [halving_loop].
    assert (Hp : 0 < 2 ^ Z.of_nat n) by (apply Z.pow_pos_nonneg; lia).
    replace (Z.of_nat (S n)) with (Z.of_nat n + 1) in Hs by lia.
    rewrite !Z.pow_add_r in Hs by lia. change (2 ^ 1) with 2 in Hs.
    replace (s >? 0) with true by (symmetry; apply Z.gtb_lt; lia).
    rewrite (IH fuel (s / 2) (liq + 1)).
    + f_equal. lia.
    + rewrite Z.pow_add_r by lia. change (2 ^ 1) with 2.
      Z.div_mod_to_equations. lia.
    + lia.
Qed.



Lemma le_unsigned_range (bytes : list byte) :
  0 <= Notions.le_unsigned bytes < 256 ^ Z.of_nat (length bytes).
Proof.
  induction bytes as [|b bytes IH].
  - cbn. lia.
  - cbn [Notions.le_unsigned fold_right length].
    fold (Notions.le_unsigned bytes).
    pose proof (byte_val_range b).
    rewrite Nat2Z.inj_succ, Z.pow_succ_r by lia. lia.
Qed.

(** X10: the two 32-bit reads of [fetchData] recombine into the signed
    64-bit little-endian integer stored at bytes 208..215 of the Pyth
    account: the raw price lies in [-2^63, 2^63), is congruent modulo
    2^64 to the unsigned value of those eight bytes, and is negative
    exactly when the top bit of byte 215 is set.  The read fails (and
    [fetchData] returns null through its catch) exactly when the account
    holds fewer than 216 bytes. *)
Theorem pyth_rawPrice_is_int64 (pythData : list byte) :
  (pyth_rawPrice pythData = None <-> (length pythData < 216)%nat)
  /\ (forall rawPrice,
        pyth_rawPrice pythData = Some rawPrice ->
        - 2 ^ 63 <= rawPrice < 2 ^ 63
        /\ rawPrice mod 2 ^ 64
           = Notions.le_unsigned (firstn 8 (skipn 208 pythData))
        /\ (rawPrice < 0
            <-> 2 ^ 63 <= Notions.le_unsigned
                            (firstn 8 (skipn 208 pythData)))).
Proof.
  unfold pyth_rawPrice, readUInt32LE, readInt32LE_at.
  assert (Hskip : skipn 212 pythData = skipn 4 (skipn 208 pythData))
    by (rewrite skipn_skipn; reflexivity).
  rewrite Hskip.
  pose proof (length_skipn 208 pythData) as Hl.
  destruct (skipn 208 pythData)
    as [|b0 [|b1 [|b2 [|b3 [|b4 [|b5 [|b6 [|b7 rest]]]]]]]];
    cbn [length] in Hl; cbn [skipn].
  1-8: split; [split; [intros _; lia | reflexivity]
              | intros rawPrice H; discriminate H].
  rewrite readInt32LE_unfold. cbv zeta. split.
  - split; [intros H; discriminate H | intros H; lia].
  - intros rawPrice H. injection H as <-.
    cbn [firstn Notions.le_unsigned fold_right].
    pose proof (byte_val_range b0). pose proof (byte_val_range b1).
    pose proof (byte_val_range b2). pose proof (byte_val_range b3).
    pose proof (byte_val_range b4). pose proof (byte_val_range b5).
    pose proof (byte_val_range b6). pose proof (byte_val_range b7).
    change (2 ^ 63) with 9223372036854775808.
    change (2 ^ 64) with 18446744073709551616.
    match goal with |- context [if ?c then _ else _] => destruct c eqn:E end;
      [apply Z.ltb_lt in E | apply Z.ltb_ge in E];
      (split; [lia|]); (split; [|lia]).
    + rewrite Z.mod_small by lia. lia.
    + match goal with |- ?a mod ?m = ?b =>
        replace a with (b + (-1) * m) by lia end.
      rewrite Z.mod_add by lia. apply Z.mod_small. lia.
Qed.

Lemma pyth_rawPrice_is_int64_witness :
  - 2 ^ 63 <= -2 < 2 ^ 63
  /\ (-2) mod 2 ^ 64
     = Notions.le_unsigned
         (firstn 8 (skipn 208
            (repeat x00 208
             ++ [xfe; xff; xff; xff; xff; xff; xff; xff])))
  /\ (-2 < 0
      <-> 2 ^ 63 <= Notions.le_unsigned
                      (firstn 8 (skipn 208
                         (repeat x00 208
                          ++ [xfe; xff; xff; xff; xff; xff; xff; xff])))).
Proof.
  apply (proj2 (pyth_rawPrice_is_int64
                  (repeat x00 208
                   ++ [xfe; xff; xff; xff; xff; xff; xff; xff]))).
  reflexivity.
Defined.

End CollectorOnChainReads.

Section CollectorTicks.
Import JS Collector.

Lemma calculateFeatures_some_iff (history : list Sample) :
  (exists row, calculateFeatures history = Some row)
  <-> (4 <= length history)%nat.
Proof.
  split.
  - intros [row H]. unfold calculateFeatures in H.
    rewrite <- length_rev.
    destruct (rev history) as [|c [|p1 [|p2 [|p3 older]]]];
      try discriminate H. cbn [length]. lia.
  - intros H. destruct (last_four history H)
      as (older & p3 & p2 & p1 & c & ->).
    rewrite calculateFeatures_four. eexists. reflexivity.
Qed.

Lemma label_pending_effect (pythPrice : Q) (pendingLabels : list Row) :
  forall (rows : list (Row * Z)) (count : Z),
    let k := (length pendingLabels - 6)%nat in
    label_pending pendingLabels pythPrice rows count
    = (skipn k pendingLabels,
       rows ++ map (fun old => (old, labelData old pythPrice))
                 (firstn k pendingLabels),
       count + Z.of_nat k).
Proof.
  induction pendingLabels as [|old rest IH]; intros rows count k.
  - cbn. rewrite app_nil_r. f_equal. lia.
  - cbn [label_pending]. unfold LOOKAHEAD.
    destruct (Z.gtb_spec (Z.of_nat (length (old :: rest))) 6) as [Hg|Hl].
    + rewrite IH. cbn [length] in Hg, k.
      assert (Hk : k = S (length rest - 6)) by lia.
      rewrite Hk. cbn [skipn firstn map].
      rewrite <- app_assoc. cbn [app]. f_equal. lia.
    + cbn [length] in Hl, k.
      assert (Hk : k = 0%nat) by lia.
      rewrite Hk. cbn [skipn firstn map]. rewrite app_nil_r.
      f_equal. lia.
Qed.

(** The successful fetches among the results of [fetchData]. *)
Let fetched (fetches : list (option Sample)) : Z :=
  Z.of_nat (length (filter (fun d => match d with Some _ => true
                                             | None => false end)
                      fetches)).

(** The shape of the collector's state after [k] successful fetches. *)
Let shaped (k : Z) (st : Collected) : Prop :=
  Z.of_nat (length (priceHistory st)) = Z.min k 20
  /\ Z.of_nat (length (pendingLabels st)) = Z.max 0 (Z.min (k - 3) 6)
  /\ sampleCount st = Z.max 0 (k - 9)
  /\ Z.of_nat (length (csv_rows st)) = sampleCount st.

Lemma tick_shaped (k : Z) (st : Collected) (data : option Sample) :
  0 <= k -> shaped k st ->
  shaped (match data with Some _ => k + 1 | None => k end) (tick st data).
Proof.
  intros Hk (Hh & Hp & Hc & Hr). destruct data as [d|]; [|repeat split;
                                                           assumption].
  unfold tick, MAX_HISTORY.
  set (pushed := priceHistory st ++ [d]).
  assert (Hpl : Z.of_nat (length pushed) = Z.min k 20 + 1)
    by (unfold pushed; rewrite length_app; cbn [length]; lia).
  set (history := if Z.of_nat (length pushed) >? 20 then tl pushed
                  else pushed).
  assert (Hhl : Z.of_nat (length history) = Z.min (k + 1) 20).
  { unfold history.
    destruct (Z.gtb_spec (Z.of_nat (length pushed)) 20) as [Hg|Hl].
    - destruct pushed as [|x pushed']; cbn [length tl] in *; lia.
    - lia. }
  destruct (calculateFeatures history) as [features|] eqn:Hf.
  - assert (H4 : (4 <= length history)%nat)
      by (apply calculateFeatures_some_iff; eauto).
    rewrite label_pending_effect. cbv zeta.
    unfold shaped. cbn [priceHistory pendingLabels csv_rows sampleCount].
    rewrite length_skipn, !length_app, length_map, length_firstn.
    rewrite ?length_app. cbn [length]. repeat split; lia.
  - assert (H4 : ~ (4 <= length history)%nat).
    { intros C. apply calculateFeatures_some_iff in C.
      destruct C as [row C]. congruence. }
    unfold shaped. cbn [priceHistory pendingLabels csv_rows sampleCount].
    repeat split; lia.
Qed.

Lemma ticks_shaped (fetches : list (option Sample)) :
  forall (k : Z) (st : Collected),
    0 <= k -> shaped k st ->
    shaped (k + fetched fetches) (fold_left tick fetches st).
Proof.
  induction fetches as [|data rest IH]; intros k st Hk Hs.
  - unfold fetched. cbn. rewrite Z.add_0_r. exact Hs.
  - cbn [fold_left].
    pose proof (tick_shaped k st data Hk Hs) as Hs'.
    destruct data as [d|].
    + replace (k + fetched (Some d :: rest))
        with ((k + 1) + fetched rest)
        by (unfold fetched; cbn [filter length]; lia).
      apply IH; [lia | exact Hs'].
    + replace (k + fetched (None :: rest)) with (k + fetched rest)
        by (unfold fetched; cbn [filter length]; lia).
      apply IH; [lia | exact Hs'].
Qed.

(** X11: the collector's bookkeeping after any run of ticks, [k] of which
    fetched data (a failed fetch changes nothing): the rolling window
    holds min(k, 20) samples, min(max(k-3, 0), 6) rows wait for their
    label, and max(k-9, 0) samples have been written, the sample counter
    being the number of rows in the file.  So the window never exceeds
    MAX_HISTORY, at most LOOKAHEAD rows are pending, the first row is
    written at the tenth successful fetch and one more at each later
    one. *)
Theorem collect_bookkeeping (fetches : list (option Sample)) :
  let st := fold_left tick fetches collect_start in
  let k := Z.of_nat (length (filter (fun d => match d with
                                              | Some _ => true
                                              | None => false
                                              end) fetches)) in
  Z.of_nat (length (priceHistory st)) = Z.min k MAX_HISTORY
  /\ Z.of_nat (length (pendingLabels st))
     = Z.max 0 (Z.min (k - 3) LOOKAHEAD)
  /\ sampleCount st = Z.max 0 (k - 9)
  /\ Z.of_nat (length (csv_rows st)) = sampleCount st.
Proof.
  intros st k.
  pose proof (ticks_shaped fetches 0 collect_start ltac:(lia)) as H.
  unfold shaped, fetched in H. rewrite Z.add_0_l in H.
  apply H. cbn. repeat split; reflexivity.
Qed.

(** X12: one tick loses and reorders nothing.  When data is fetched, the
    rows appended to the file are the oldest pending rows, in order, each
    labelled by [labelData] against the price just fetched, and the rows
    written at this tick followed by the rows still pending are the rows
    that were pending followed by the row computed at this tick (if the
    window already gives one). *)
Theorem tick_is_fifo (st : Collected) (data : Sample) :
  let st' := tick st (Some data) in
  let computed := match calculateFeatures (priceHistory st') with
                  | Some features => [features]
                  | None => []
                  end in
  exists written,
    csv_rows st'
    = csv_rows st
      ++ map (fun old => (old, labelData old (pythPrice data))) written
    /\ written ++ pendingLabels st' = pendingLabels st ++ computed
    /\ sampleCount st' = sampleCount st + Z.of_nat (length written).
Proof.
  unfold tick.
  set (history := if Z.of_nat (length (priceHistory st ++ [data]))
                     >? MAX_HISTORY
                  then tl (priceHistory st ++ [data])
                  else priceHistory st ++ [data]).
  destruct (calculateFeatures history) as [features|] eqn:Hf.
  - rewrite label_pending_effect. cbv zeta.
    cbn [priceHistory pendingLabels csv_rows sampleCount]. rewrite Hf.
    eexists. split; [reflexivity|]. split; [apply firstn_skipn|].
    rewrite length_firstn. f_equal. lia.
  - cbv zeta. cbn [priceHistory pendingLabels csv_rows sampleCount].
    rewrite Hf. exists []. cbn [map length app].
    rewrite !app_nil_r. repeat split. lia.
Qed.

End CollectorTicks.

(** ** The write handler and the deploy script beyond the chunk loop *)

Section WriteHandler.
Import JS Deploy.

Lemma offset_of_bytes (lo hi : byte) :
  Z.lor (byte_val lo) (Z.shiftl (byte_val hi) 8)
  = byte_val lo + 256 * byte_val hi.
Proof.
  pose proof (byte_val_range lo) as Hlo.
  pose proof (byte_val_range hi) as Hhi.
  set (o := byte_val lo + 256 * byte_val hi).
  pose proof (u16_bytes_decode o ltac:(unfold o; lia)) as H.
  rewrite !byte_val_byte_of in H.
  rewrite Z.shiftr_div_pow2 in H by lia. change (2 ^ 8) with 256 in H.
  replace (o mod 256) with (byte_val lo) in H
    by (unfold o; Z.div_mod_to_equations; lia).
  replace ((o / 256) mod 256) with (byte_val hi) in H
    by (unfold o; Z.div_mod_to_equations; lia).
  exact H.
Qed.

Lemma sol_memcpy_nth_error (acct payload : list byte) (offset : Z)
  (i : nat) :
  0 <= offset ->
  offset + Z.of_nat (length payload) <= Z.of_nat (length acct) ->
  nth_error (sol_memcpy acct offset payload) i
  = if (Z.of_nat i <? offset) then nth_error acct i
    else if (Z.of_nat i <? offset + Z.of_nat (length payload))
         then nth_error payload (i - Z.to_nat offset)
         else nth_error acct i.
Proof.
  intros Ho Hfit. unfold sol_memcpy.
  set (o := Z.to_nat offset).
  assert (Hfl : length (firstn o acct) = o)
    by (rewrite length_firstn; lia).
  destruct (Z.ltb_spec (Z.of_nat i) offset) as [H1|H1].
  - rewrite nth_error_app1 by lia.
    rewrite nth_error_firstn.
    replace (i <? o)%nat with true by (symmetry; apply Nat.ltb_lt; lia).
    reflexivity.
  - rewrite nth_error_app2 by lia. rewrite Hfl.
    destruct (Z.ltb_spec (Z.of_nat i)
                (offset + Z.of_nat (length payload))) as [H2|H2].
    + rewrite nth_error_app1 by lia. reflexivity.
    + rewrite nth_error_app2 by lia.
      rewrite nth_error_skipn. f_equal. lia.
Qed.

Lemma sol_memcpy_idempotent (acct payload : list byte) (offset : Z) :
  0 <= offset ->
  offset + Z.of_nat (length payload) <= Z.of_nat (length acct) ->
  sol_memcpy (sol_memcpy acct offset payload) offset payload
  = sol_memcpy acct offset payload.
Proof.
  intros Ho Hfit. unfold sol_memcpy.
  set (o := Z.to_nat offset).
  set (F := firstn o acct).
  set (S := skipn (o + length payload) acct).
  assert (Hfl : length F = o)
    by (unfold F; rewrite length_firstn; lia).
  assert (H1 : firstn o (F ++ payload ++ S) = F).
  { rewrite firstn_app, Hfl, Nat.sub_diag. cbn [firstn].
    rewrite app_nil_r. apply firstn_all2. lia. }
  assert (H2 : skipn (o + length payload) (F ++ payload ++ S) = S).
  { rewrite skipn_app, Hfl.
    rewrite (skipn_all2 F) by lia.
    replace (o + length payload - o)%nat with (length payload) by lia.
    rewrite skipn_app, skipn_all, Nat.sub_diag. reflexivity. }
  rewrite H1, H2. reflexivity.
Qed.

(** X13: the on-chain write handler is a bounds-checked overwrite.  It
    rejects instruction data shorter than three bytes and any write whose
    end, offset + payload length with offset = lo + 256*hi, lies beyond
    the account; otherwise the account keeps its length, holds the
    payload at the offset and is unchanged everywhere else, and sending
    the same instruction again changes nothing. *)
Theorem write_account_handler_overwrites (mode lo hi : byte)
  (payload acct : list byte) :
  let offset := byte_val lo + 256 * byte_val hi in
  let data := mode :: lo :: hi :: payload in
  write_account_handler [] acct = None
  /\ write_account_handler [mode] acct = None
  /\ write_account_handler [mode; lo] acct = None
  /\ (write_account_handler data acct = None
      <-> Z.of_nat (length acct) < offset + Z.of_nat (length payload))
  /\ (forall acct',
        write_account_handler data acct = Some acct' ->
        length acct' = length acct
        /\ (forall i : nat,
              nth_error acct' i
              = if (offset <=? Z.of_nat i)
                   && (Z.of_nat i <? offset + Z.of_nat (length payload))
                then nth_error payload (i - Z.to_nat offset)
                else nth_error acct i)
        /\ write_account_handler data acct' = Some acct').
Proof.
  intros offset data. subst data. unfold write_account_handler.
  rewrite offset_of_bytes. fold offset. cbv zeta.
  pose proof (byte_val_range lo) as Hlo.
  pose proof (byte_val_range hi) as Hhi.
  assert (Ho : 0 <= offset) by (unfold offset; lia).
  repeat (split; [reflexivity|]).
  destruct (Z.gtb_spec (offset + Z.of_nat (length payload))
              (Z.of_nat (length acct))) as [Hbig|Hfit].
  - split; [split; [intros _; exact Hbig | reflexivity]|].
    intros acct' H. discriminate H.
  - split; [split; [intros H; discriminate H | intros H; lia]|].
    intros acct' H. injection H as <-.
    assert (Hlen : length (sol_memcpy acct offset payload) = length acct)
      by (apply sol_memcpy_length; lia).
    split; [exact Hlen|]. split.
    + intros i. rewrite sol_memcpy_nth_error by lia.
      destruct (Z.ltb_spec (Z.of_nat i) offset);
        destruct (Z.leb_spec offset (Z.of_nat i)); try lia;
        cbn [andb]; reflexivity.
    + rewrite Hlen.
      replace (offset + Z.of_nat (length payload)
               >? Z.of_nat (length acct)) with false
        by (symmetry; rewrite Z.gtb_ltb; apply Z.ltb_ge; lia).
      f_equal. apply sol_memcpy_idempotent; lia.
Qed.

Lemma write_account_handler_overwrites_witness :
  length [x00; x07; x08; x00] = length [x00; x00; x00; x00]
  /\ (forall i : nat,
        nth_error [x00; x07; x08; x00] i
        = if ((byte_val x01 + 256 * byte_val x00) <=? Z.of_nat i)
             && (Z.of_nat i <? (byte_val x01 + 256 * byte_val x00)
                               + Z.of_nat (length [x07; x08]))
          then nth_error [x07; x08]
                 (i - Z.to_nat (byte_val x01 + 256 * byte_val x00))
          else nth_error [x00; x00; x00; x00] i)
  /\ write_account_handler [x03; x01; x00; x07; x08] [x00; x07; x08; x00]
     = Some [x00; x07; x08; x00].
Proof.
  apply (proj2 (proj2 (proj2 (proj2
           (write_account_handler_overwrites x03 x01 x00 [x07; x08]
              [x00; x00; x00; x00]))))).
  reflexivity.
Defined.

End WriteHandler.

Section DeployEdges.
Import JS Deploy.

Variable transportLimit : Z.

Lemma chunk_loop_zero_size (data : list byte) :
  0 <= transportLimit ->
  forall (fuel : nat) (w : Chain) (i : Z),
    chunk_loop transportLimit fuel w data 0 Infinity i = None.
Proof.
  intros HL. induction fuel as [|fuel IH]; intros w i; [reflexivity|].
  cbn [chunk_loop lt_num]. rewrite Z.mul_0_r.
  rewrite (slice_chunk data 0 0) by lia. cbn [Z.to_nat firstn].
  rewrite writeAccountDirect_ok by (cbn [length]; lia).
  apply IH.
Qed.

(** X14: degenerate arguments of the chunked deploy.  With an empty
    payload, or with a negative chunk size, the loop body never runs: the
    deploy resolves at once without a single write, so a negative chunk
    size silently deploys nothing.  With a chunk size of 0 and a
    non-empty payload the loop bound is Infinity and every iteration
    writes the empty chunk at offset 0, which the chain accepts: the
    deploy never ends, whatever fuel it is given. *)
Theorem writeToAccountChunked_degenerate (w : Chain) (data : list byte)
  (chunkSize : Z) (fuel : nat) :
  (data = [] \/ chunkSize < 0 ->
   writeToAccountChunked transportLimit (S fuel) w data chunkSize
   = Some (w, Resolved))
  /\ (data <> [] -> chunkSize = 0 -> 0 <= transportLimit ->
      writeToAccountChunked transportLimit fuel w data chunkSize = None).
Proof.
  unfold writeToAccountChunked, Math_ceil_div. split.
  - intros [-> | Hneg].
    + cbn [length Z.of_nat]. destruct (chunkSize =? 0); [reflexivity|].
      cbn [chunk_loop lt_num]. change (- 0) with 0.
      rewrite Zdiv_0_l. reflexivity.
    + replace (chunkSize =? 0) with false
        by (symmetry; apply Z.eqb_neq; lia).
      cbn [chunk_loop lt_num].
      replace (0 <? - (- Z.of_nat (length data) / chunkSize)) with false;
        [reflexivity|].
      symmetry. apply Z.ltb_ge. Z.div_mod_to_equations. nia.
  - intros Hne -> HL. cbn [Z.eqb].
    replace (Z.of_nat (length data) =? 0) with false
      by (symmetry; apply Z.eqb_neq;
          destruct data; [contradiction | cbn [length]; lia]).
    apply chunk_loop_zero_size. exact HL.
Qed.

(** X15: a resolved deploy can be repeated: running the same chunked
    deploy again on the account it produced resolves again and leaves
    every byte of the account as it was (all chunks are overwritten with
    themselves). *)
Theorem writeToAccountChunked_rerun (payload : list byte) (chunkSize : Z)
  (fuel : nat) (w : Chain) :
  let count := Spec.chunk_count (Z.of_nat (length payload)) chunkSize in
  0 < chunkSize <= transportLimit ->
  Z.of_nat (length payload) <= Z.of_nat (length (account w)) ->
  (count - 1) * chunkSize <= 65535 ->
  (Z.to_nat count < fuel)%nat ->
  exists w1 w2,
    writeToAccountChunked transportLimit fuel w payload chunkSize
    = Some (w1, Resolved)
    /\ writeToAccountChunked transportLimit fuel w1 payload chunkSize
       = Some (w2, Resolved)
    /\ account w2 = account w1
    /\ length (account w1) = length (account w).
Proof.
  intros count Hc Hcap Hoff Hfuel.
  assert (Hl1 : length (payload ++ skipn (length payload) (account w))
                = length (account w))
    by (rewrite length_app, length_skipn; lia).
  eexists. eexists.
  split; [apply writeToAccountChunked_resolves; assumption|].
  split.
  - apply writeToAccountChunked_resolves; cbn [account];
      [assumption | rewrite Hl1; exact Hcap | assumption | assumption].
  - cbn [account]. split; [|exact Hl1].
    f_equal. rewrite skipn_app, skipn_all, Nat.sub_diag. reflexivity.
Qed.


End DeployEdges.

Section DeployEdgeCases.
Import JS Deploy.

Lemma writeToAccountChunked_degenerate_witness :
  writeToAccountChunked 900 (S 4) (createAccount 4) [x01; x02] (-1)
  = Some (createAccount 4, Resolved)
  /\ writeToAccountChunked 900 1000 (createAccount 4) [x01; x02] 0 = None.
Proof.
  split.
  - apply (proj1 (writeToAccountChunked_degenerate 900 (createAccount 4)
                    [x01; x02] (-1) 4)).
    right. lia.
  - apply (proj2 (writeToAccountChunked_degenerate 900 (createAccount 4)
                    [x01; x02] 0 1000));
      [discriminate | reflexivity | lia].
Defined.

Lemma writeToAccountChunked_rerun_witness :
  exists w1 w2,
    writeToAccountChunked 900 10 (createAccount 8)
      [x01; x02; x03; x04; x05] 2 = Some (w1, Resolved)
    /\ writeToAccountChunked 900 10 w1 [x01; x02; x03; x04; x05] 2
       = Some (w2, Resolved)
    /\ account w2 = account w1
    /\ length (account w1) = length (account (createAccount 8)).
Proof.
  apply (writeToAccountChunked_rerun 900 [x01; x02; x03; x04; x05] 2 10
           (createAccount 8));
    first [ lia | vm_compute; first [ reflexivity | lia | discriminate ] ].
Defined.


End DeployEdgeCases.

Section DeployMain.
Import JS Deploy.

Lemma skipn_repeat_zero (n m : nat) :
  skipn n (repeat x00 m) = repeat x00 (m - n).
Proof.
  revert m. induction n as [|n IH]; intros m.
  - rewrite Nat.sub_0_r. reflexivity.
  - destruct m as [|m]; [reflexivity|]. cbn [repeat skipn Nat.sub].
    apply IH.
Qed.

(** X17: what [main] leaves on chain, given a transport limit of at least
    the default chunk size 900 and a module of at most 65700 bytes (the
    largest the 16-bit offsets reach with chunks of 900).  The module
    account is created with max(length + 64, 4096) bytes, so the deploy
    never runs out of room: it holds the bytecode followed by zeros, at
    least 64 of them, written as the chunks of 900 bytes in order.  Then
    weights of at most 128 bytes land at the start of the zeroed 128-byte
    weights account and [main] resolves, while longer weights are
    rejected by the chain after the module is fully deployed, leaving the
    weights account all zero.  The features account is never written. *)
Theorem main_on_chain (transportLimit : Z) (fuel : nat)
  (moduleBytecode weights : list byte) :
  let len := Z.of_nat (length moduleBytecode) in
  let deployed :=
    {| account := moduleBytecode
                  ++ repeat x00 (Z.to_nat (moduleSpace moduleBytecode)
                                 - length moduleBytecode);
       calls := Spec.chunks moduleBytecode default_chunkSize |} in
  900 <= transportLimit ->
  len <= 65700 ->
  (Z.to_nat (Spec.chunk_count len default_chunkSize) < fuel)%nat ->
  (64 <= Z.to_nat (moduleSpace moduleBytecode) - length moduleBytecode)%nat
  /\ ((length weights <= 128)%nat ->
      main transportLimit fuel moduleBytecode weights
      = Some ({| moduleAcc := deployed;
                 weightsAcc :=
                   {| account := weights
                                 ++ repeat x00 (128 - length weights);
                      calls := [(0, weights)] |};
                 featuresAcc := createAccount featuresSpace |},
              Resolved))
  /\ ((128 < length weights)%nat ->
      main transportLimit fuel moduleBytecode weights
      = Some ({| moduleAcc := deployed;
                 weightsAcc :=
                   {| account := repeat x00 128;
                      calls := [(0, weights)] |};
                 featuresAcc := createAccount featuresSpace |},
              Rejected TransactionRejected)).
Proof.
  intros len deployed HL Hlen Hfuel.
  assert (Hspace : Z.of_nat (length moduleBytecode) + 64
                   <= moduleSpace moduleBytecode)
    by (unfold moduleSpace; lia).
  split; [lia|].
  assert (Hmod :
    writeToAccountChunked transportLimit fuel
      (createAccount (moduleSpace moduleBytecode)) moduleBytecode
      default_chunkSize
    = Some (deployed, Resolved)).
  { rewrite writeToAccountChunked_resolves.
    - unfold deployed, createAccount. cbn [account calls app].
      rewrite skipn_repeat_zero. reflexivity.
    - unfold default_chunkSize. lia.
    - unfold createAccount. cbn [account]. rewrite repeat_length. lia.
    - fold len. unfold Spec.chunk_count, default_chunkSize.
      Z.div_mod_to_equations. lia.
    - exact Hfuel. }
  unfold main. cbn [moduleAcc weightsAcc featuresAcc]. rewrite Hmod.
  unfold weightsSpace, createAccount at 1 2.
  change (Z.to_nat 128) with 128%nat.
  split; intros Hw.
  - rewrite writeAccountDirect_ok.
    + cbn [account calls app]. unfold sol_memcpy.
      cbn [Z.to_nat firstn app Nat.add].
      rewrite skipn_repeat_zero. reflexivity.
    + lia.
    + lia.
    + cbn [account]. rewrite repeat_length. lia.
  - rewrite writeAccountDirect_overflow.
    + reflexivity.
    + lia.
    + unfold createAccount. cbn [account]. rewrite repeat_length. lia.
Qed.

Lemma main_on_chain_witness :
  main 1000 5 [x0a; x0b; x0c] [x01; x02]
  = Some ({| moduleAcc :=
               {| account := [x0a; x0b; x0c]
                             ++ repeat x00
                                  (Z.to_nat (moduleSpace [x0a; x0b; x0c])
                                   - length [x0a; x0b; x0c]);
                  calls := Spec.chunks [x0a; x0b; x0c] default_chunkSize |};
             weightsAcc :=
               {| account := [x01; x02] ++ repeat x00 (128 - 2);
                  calls := [(0, [x01; x02])] |};
             featuresAcc := createAccount featuresSpace |},
          Resolved).
Proof.
  apply (proj1 (proj2 (main_on_chain 1000 5 [x0a; x0b; x0c] [x01; x02]
                         ltac:(lia) ltac:(cbn; lia)
                         ltac:(vm_compute; lia)))).
  cbn [length]. lia.
Defined.

End DeployMain.

(** ** The crank script beyond the cycle *)

Section CrankTransactions.
Import JS Crank.

Variable Pubkey : Type.

Lemma account_metas_shape (accountPubkeys : list (option Pubkey)) :
  map pubkey (account_metas Pubkey accountPubkeys) = accountPubkeys
  /\ map isSigner (account_metas Pubkey accountPubkeys)
     = repeat false (length accountPubkeys)
  /\ map isWritable (account_metas Pubkey accountPubkeys)
     = match accountPubkeys with
       | [] => []
       | _ :: rest => repeat false (length rest) ++ [true]
       end.
Proof.
  induction accountPubkeys as [|pk rest (IH1 & IH2 & IH3)].
  - repeat split.
  - cbn [account_metas map pubkey isSigner isWritable length repeat].
    rewrite IH1, IH2, IH3. repeat split.
    destruct rest as [|pk' rest']; reflexivity.
Qed.

(** X18: the transaction [executePythonScript] builds.  Its data is the
    mode byte 0x02, a two-byte little-endian length and the bytecode; the
    length field is the bytecode length modulo 65536, so it is the true
    length only for bytecode shorter than 65536 bytes.  The account metas
    keep the order of the given keys, none is a signer, and the last one,
    and only the last one, is writable; without accounts there is no
    meta. *)
Theorem crank_transaction_shape (bytecode : list byte)
  (accountPubkeys : list (option Pubkey)) :
  let tx := build_transaction Pubkey bytecode accountPubkeys in
  let len := Z.of_nat (length bytecode) in
  (exists lo hi,
     data tx = x02 :: lo :: hi :: bytecode
     /\ byte_val lo + 256 * byte_val hi = len mod 65536
     /\ (len < 65536 -> byte_val lo + 256 * byte_val hi = len))
  /\ computeUnitLimit tx = 500000
  /\ map pubkey (keys tx) = accountPubkeys
  /\ map isSigner (keys tx) = repeat false (length accountPubkeys)
  /\ map isWritable (keys tx)
     = match accountPubkeys with
       | [] => []
       | _ :: rest => repeat false (length rest) ++ [true]
       end.
Proof.
  intros tx len. subst tx. unfold build_transaction.
  cbn [data keys computeUnitLimit]. fold len. split.
  - eexists. eexists. split; [reflexivity|].
    rewrite !byte_val_byte_of.
    change 255 with (Z.ones 8). rewrite !Z.land_ones by lia.
    rewrite Z.shiftr_div_pow2 by lia. change (2 ^ 8) with 256.
    assert (Hlen : 0 <= len) by (unfold len; lia).
    split; [|intros Hs]; Z.div_mod_to_equations; lia.
  - split; [reflexivity|]. apply account_metas_shape.
Qed.

End CrankTransactions.

Section CrankTransactionCases.
Import JS Crank.

Lemma crank_transaction_shape_witness :
  exists lo hi,
    data (build_transaction unit [x0a; x0b; x0c] [Some tt; None])
    = x02 :: lo :: hi :: [x0a; x0b; x0c]
    /\ byte_val lo + 256 * byte_val hi = 3 mod 65536
    /\ (3 < 65536 -> byte_val lo + 256 * byte_val hi = 3).
Proof.
  exact (proj1 (crank_transaction_shape unit [x0a; x0b; x0c]
                  [Some tt; None])).
Defined.

End CrankTransactionCases.

Section CrankState.
Import JS Crank.

Lemma readUInt32LE_value (buf : list byte) (offset : nat) :
  readUInt32LE buf offset
  = if (offset + 4 <=? length buf)%nat
    then Some (Notions.le_unsigned (firstn 4 (skipn offset buf)))
    else None.
Proof.
  unfold readUInt32LE. pose proof (length_skipn offset buf) as Hl.
  destruct (skipn offset buf) as [|b0 [|b1 [|b2 [|b3 rest]]]];
    cbn [length] in Hl.
  1-4: replace (offset + 4 <=? length buf)%nat with false
         by (symmetry; apply Nat.leb_gt; lia); reflexivity.
  replace (offset + 4 <=? length buf)%nat with true
    by (symmetry; apply Nat.leb_le; lia).
  cbn [firstn Notions.le_unsigned fold_right]. f_equal. lia.
Qed.

Lemma byte_at_value (data : list byte) (i : nat) :
  (i < length data)%nat ->
  exists v, byte_at data i = Some v /\ 0 <= v <= 255
            /\ v = Notions.le_unsigned (firstn 1 (skipn i data)).
Proof.
  intros Hi. unfold byte_at.
  assert (Hn : nth_error data i = nth_error (skipn i data) 0)
    by (rewrite nth_error_skipn, Nat.add_0_r; reflexivity).
  rewrite Hn. clear Hn.
  pose proof (length_skipn i data) as Hl.
  destruct (skipn i data) as [|b rest]; cbn [length] in Hl; [lia|].
  cbn [nth_error option_map firstn Notions.le_unsigned fold_right].
  exists (byte_val b). pose proof (byte_val_range b).
  repeat split; lia.
Qed.

(** X19: [readAccumulatorState] gives null when the request is rejected,
    when there is no account, and exactly when the account data is
    shorter than 28 bytes (the last read, at offset 24, throws into the
    catch).  Otherwise the state is the fixed little-endian layout of the
    first 28 bytes: four-byte unsigned prices at offsets 0, 4, 8 and 12,
    the sma at 16, one byte each for volatility, momentum, liquidity and
    spread at 20..23, none of them undefined, and the DEX price at 24;
    every 32-bit field is below 2^32. *)
Theorem readAccumulatorState_layout (data : list byte) :
  readAccumulatorState RpcRejected = None
  /\ readAccumulatorState NoAccount = None
  /\ (readAccumulatorState (Account data) = None
      <-> (length data < 28)%nat)
  /\ (forall st,
        readAccumulatorState (Account data) = Some st ->
        let field offset width :=
          Notions.le_unsigned (firstn width (skipn offset data)) in
        lastPrice st = field 0%nat 4%nat
        /\ prevPrice1 st = field 4%nat 4%nat
        /\ prevPrice2 st = field 8%nat 4%nat
        /\ prevPrice3 st = field 12%nat 4%nat
        /\ sma st = field 16%nat 4%nat
        /\ volatility st = Some (field 20%nat 1%nat)
        /\ momentum st = Some (field 21%nat 1%nat)
        /\ liquidity st = Some (field 22%nat 1%nat)
        /\ spread st = Some (field 23%nat 1%nat)
        /\ dexPrice st = field 24%nat 4%nat
        /\ 0 <= lastPrice st < 2 ^ 32
        /\ 0 <= dexPrice st < 2 ^ 32).
Proof.
  split; [reflexivity|]. split; [reflexivity|].
  unfold readAccumulatorState. rewrite !readUInt32LE_value.
  destruct (Nat.lt_ge_cases (length data) 28) as [Hs|Hl].
  - split.
    + split; [intros _; exact Hs|]. intros _.
      replace (24 + 4 <=? length data)%nat with false
        by (symmetry; apply Nat.leb_gt; lia).
      repeat match goal with
             | |- context [if ?c then _ else _] => destruct c
             end; reflexivity.
    + intros st H.
      replace (24 + 4 <=? length data)%nat with false in H
        by (symmetry; apply Nat.leb_gt; lia).
      repeat match type of H with
             | context [if ?c then _ else _] => destruct c
             end; discriminate H.
  - replace (0 + 4 <=? length data)%nat with true
      by (symmetry; apply Nat.leb_le; lia).
    replace (4 + 4 <=? length data)%nat with true
      by (symmetry; apply Nat.leb_le; lia).
    replace (8 + 4 <=? length data)%nat with true
      by (symmetry; apply Nat.leb_le; lia).
    replace (12 + 4 <=? length data)%nat with true
      by (symmetry; apply Nat.leb_le; lia).
    replace (16 + 4 <=? length data)%nat with true
      by (symmetry; apply Nat.leb_le; lia).
    replace (24 + 4 <=? length data)%nat with true
      by (symmetry; apply Nat.leb_le; lia).
    split; [split; [intros H; discriminate H | intros H; lia]|].
    intros st H. injection H as <-. cbv zeta.
    cbn [lastPrice prevPrice1 prevPrice2 prevPrice3 sma volatility
         momentum liquidity spread dexPrice].
    destruct (byte_at_value data 20 ltac:(lia)) as (v0 & -> & _ & ->).
    destruct (byte_at_value data 21 ltac:(lia)) as (v1 & -> & _ & ->).
    destruct (byte_at_value data 22 ltac:(lia)) as (v2 & -> & _ & ->).
    destruct (byte_at_value data 23 ltac:(lia)) as (v3 & -> & _ & ->).
    repeat (split; [reflexivity|]).
    pose proof (le_unsigned_range (firstn 4 (skipn 0 data))) as H0.
    pose proof (le_unsigned_range (firstn 4 (skipn 24 data))) as H24.
    rewrite length_firstn, length_skipn in H0, H24.
    replace (Init.Nat.min 4 (length data - 0)) with 4%nat in H0 by lia.
    replace (Init.Nat.min 4 (length data - 24)) with 4%nat in H24 by lia.
    change (256 ^ Z.of_nat 4) with (2 ^ 32) in H0, H24.
    split; assumption.
Qed.

Lemma readAccumulatorState_layout_witness :
  let data := [x10; x27; x00; x00] ++ repeat x00 16
              ++ [x05; x80; x1e; x81] ++ [x0f; x27; x00; x00] in
  let st := {| lastPrice := 10000; prevPrice1 := 0; prevPrice2 := 0;
               prevPrice3 := 0; sma := 0; volatility := Some 5;
               momentum := Some 128; liquidity := Some 30;
               spread := Some 129; dexPrice := 9999 |} in
  lastPrice st = Notions.le_unsigned (firstn 4 (skipn 0 data))
  /\ spread st = Some (Notions.le_unsigned (firstn 1 (skipn 23 data)))
  /\ dexPrice st = Notions.le_unsigned (firstn 4 (skipn 24 data)).
Proof.
  intros data st.
  pose proof (proj2 (proj2 (proj2 (readAccumulatorState_layout data)))
                st eq_refl) as H.
  cbv zeta in H.
  destruct H as (H0 & _ & _ & _ & _ & _ & _ & _ & H23 & H24 & _).
  split; [exact H0|]. split; [exact H23 | exact H24].
Defined.

End CrankState.

Section CrankCluster.
Import Crank.

Variable Pubkey : Type.
Variable Cluster : Type.
Variable compilePython : string -> option (list byte).
Variable accountMap : string -> option Pubkey.
Variable sendAndConfirmTransaction :
  Cluster -> Transaction Pubkey -> Cluster * option string.

Let step := crank_step Pubkey Cluster compilePython accountMap
              sendAndConfirmTransaction.
Let plan := planned Pubkey compilePython accountMap.
Let apply_tx (c : Cluster) (tx : Transaction Pubkey) : Cluster :=
  fst (sendAndConfirmTransaction c tx).

Lemma crank_step_cluster (w : World Pubkey Cluster) (script : Script) :
  cluster (step w script) = fold_left apply_tx (plan script) (cluster w).
Proof.
  unfold step, plan, crank_step, planned, executePythonScript, log,
    apply_tx.
  destruct (compilePython (file script)) as [bytecode|]; [|reflexivity].
  cbn [cluster submitted console fold_left].
  destruct (sendAndConfirmTransaction (cluster w) _) as [c' [sig|]];
    reflexivity.
Qed.

Lemma crank_loop_cluster (scripts : list Script) :
  forall w : World Pubkey Cluster,
    cluster (crank_loop Pubkey Cluster compilePython accountMap
               sendAndConfirmTransaction scripts w)
    = fold_left apply_tx (flat_map plan scripts) (cluster w).
Proof.
  induction scripts as [|script rest IH]; intros w; [reflexivity|].
  unfold crank_loop. cbn [fold_left flat_map]. fold (step w script).
  rewrite fold_left_app, <- crank_step_cluster.
  apply IH.
Qed.

(** X20: a crank cycle acts on the cluster only through the transactions
    it submits: the final cluster state is the initial one after the
    transactions of the scripts that compile, applied in script order,
    whether each was confirmed or rejected.  In particular, when no
    script compiles nothing is submitted and the cluster is left as it
    was. *)
Theorem runCrankCycle_cluster (w : World Pubkey Cluster) :
  let w' := runCrankCycle Pubkey Cluster compilePython accountMap
              sendAndConfirmTransaction w in
  cluster w'
  = fold_left (fun c tx => fst (sendAndConfirmTransaction c tx))
      (flat_map (planned Pubkey compilePython accountMap)
         ACCUMULATOR_SCRIPTS)
      (cluster w)
  /\ ((forall script, In script ACCUMULATOR_SCRIPTS ->
                      compilePython (file script) = None) ->
      cluster w' = cluster w /\ submitted w' = submitted w).
Proof.
  intros w'. subst w'. unfold runCrankCycle. split.
  - apply crank_loop_cluster.
  - intros Hnone.
    assert (Hplan : flat_map plan ACCUMULATOR_SCRIPTS = []).
    { induction ACCUMULATOR_SCRIPTS as [|s rest IH]; [reflexivity|].
      cbn [flat_map]. unfold plan at 1, planned.
      rewrite (Hnone s (or_introl eq_refl)). cbn [app].
      apply IH. intros script Hin. apply Hnone. now right. }
    split.
    + rewrite crank_loop_cluster, Hplan. reflexivity.
    + destruct (crank_loop_effect Pubkey Cluster compilePython accountMap
                  sendAndConfirmTransaction ACCUMULATOR_SCRIPTS w)
        as [Hs _].
      rewrite Hs. fold plan. rewrite Hplan. apply app_nil_r.
Qed.

End CrankCluster.

Section SingleWrite.
Import JS Deploy.

Variable transportLimit : Z.

Lemma writeAccountDirect_too_long (w : Chain) (chunk : list byte)
  (offset : Z) :
  0 <= offset <= 65535 ->
  transportLimit < Z.of_nat (length chunk) ->
  writeAccountDirect transportLimit w chunk offset
  = ({| account := account w; calls := calls w ++ [(offset, chunk)] |},
     Rejected TransactionRejected).
Proof.
  intros Ho Hl. unfold writeAccountDirect.
  rewrite writeUInt16LE_some by exact Ho.
  cbn [account calls]. unfold sendAndConfirmTransaction.
  cbn [app length].
  replace (Z.of_nat (S (S (S (length chunk)))) - 3 >? transportLimit)
    with true by (symmetry; rewrite Z.gtb_ltb; apply Z.ltb_lt; lia).
  reflexivity.
Qed.

Lemma writeUInt16LE_negative (offset : Z) :
  offset < 0 -> writeUInt16LE offset = None.
Proof.
  intros H. unfold writeUInt16LE.
  replace (0 <=? offset) with false by (symmetry; apply Z.leb_gt; lia).
  reflexivity.
Qed.

(** X21: the three ways one [writeAccountDirect] can end.  It resolves
    exactly when the offset fits 16 bits, the data is within the
    transport limit and offset + length is within the account, and then
    the account holds the data at the offset; it throws ERR_OUT_OF_RANGE
    exactly when the offset is outside [0, 65535]; in every other case
    the transaction is rejected.  A write that does not resolve leaves
    the account as it was. *)
Theorem writeAccountDirect_outcomes (w : Chain) (data : list byte)
  (offset : Z) :
  let (w', out) := writeAccountDirect transportLimit w data offset in
  let fits := 0 <= offset <= 65535
              /\ Z.of_nat (length data) <= transportLimit
              /\ offset + Z.of_nat (length data)
                 <= Z.of_nat (length (account w)) in
  (out = Resolved <-> fits)
  /\ (out = Rejected ERR_OUT_OF_RANGE <-> offset < 0 \/ 65535 < offset)
  /\ (out = Rejected TransactionRejected
      <-> 0 <= offset <= 65535 /\ ~ fits)
  /\ (out = Resolved -> account w' = sol_memcpy (account w) offset data)
  /\ (out <> Resolved -> account w' = account w)
  /\ calls w' = calls w ++ [(offset, data)].
Proof.
  destruct (Z.lt_ge_cases offset 0) as [Hneg|Hnn].
  - unfold writeAccountDirect. rewrite writeUInt16LE_negative by exact Hneg.
    repeat split; intros; try discriminate; try lia; try tauto.
  - destruct (Z.lt_ge_cases 65535 offset) as [Hbig|Hok].
    + rewrite writeAccountDirect_out_of_range by exact Hbig.
      repeat split; intros; try discriminate; try lia; try tauto.
    + destruct (Z.lt_ge_cases transportLimit (Z.of_nat (length data)))
        as [Hlong|Hshort].
      * rewrite writeAccountDirect_too_long by lia.
        repeat split; intros; try discriminate; try lia; try tauto.
      * destruct (Z.lt_ge_cases (Z.of_nat (length (account w)))
                    (offset + Z.of_nat (length data))) as [Hover|Hfit].
        -- rewrite writeAccountDirect_overflow by lia.
           repeat split; intros; try discriminate; try lia; try tauto.
        -- rewrite writeAccountDirect_ok by lia.
           repeat split; intros; try discriminate; try lia; try tauto;
             try congruence.
Qed.

End SingleWrite.

Section CoverageCases.
Import JS Deploy Crank.

Lemma runCrankCycle_cluster_witness :
  let w := {| cluster := 5; submitted := @nil (Transaction unit);
              console := [] |} in
  let w' := runCrankCycle unit Z (fun _ => None) (fun _ => Some tt)
              (fun c _ => (c + 1, None)) w in
  cluster w' = 5 /\ submitted w' = [].
Proof.
  apply (runCrankCycle_cluster unit Z (fun _ => None) (fun _ => Some tt)
           (fun c _ => (c + 1, None))).
  intros script _. reflexivity.
Defined.

Lemma writeAccountDirect_outcomes_witness :
  let w := {| account := [x00; x00; x00; x00]; calls := [] |} in
  account (fst (writeAccountDirect 900 w [x07; x08] 1))
  = [x00; x07; x08; x00]
  /\ account (fst (writeAccountDirect 900 w [x07; x08] 3)) = account w.
Proof.
  intros w.
  pose proof (writeAccountDirect_outcomes 900 w [x07; x08] 1) as H1.
  pose proof (writeAccountDirect_outcomes 900 w [x07; x08] 3) as H3.
  destruct (writeAccountDirect 900 w [x07; x08] 1) as [w1 o1].
  destruct (writeAccountDirect 900 w [x07; x08] 3) as [w3 o3].
  destruct H1 as (R1 & _ & _ & A1 & _).
  destruct H3 as (R3 & _ & _ & _ & A3 & _).
  split.
  - cbn [fst]. rewrite A1.
    + reflexivity.
    + apply R1. subst w. cbn [account length]. lia.
  - cbn [fst]. apply A3. intros E. apply R3 in E.
    subst w. cbn [account length] in E. lia.
Defined.

End CoverageCases.
